(** * Ljos standard library, C++ runtime: a shallow embedding

    The runtime consists of four header files:
    [string.hpp] (namespace [ljos::str]), [math.hpp] ([ljos::math]),
    [io.hpp] ([ljos::io]) and [fs.hpp] ([ljos::fs]).  Each section below
    embeds the functions of one header and states the properties of the
    library contract over them.

    Conventions of the embedding.
    - A [std::string] is a list of 8-bit characters ([text]).  Lengths and
      in-string positions are natural numbers: [std::string::max_size()] is
      below [npos], so no position of a real string wraps.  Where the source
      converts a length or a position to [int] or to [size_t], the conversion
      is written out on [Z] with its wrap-around.
    - A C++ function that can throw returns an [outcome]; [try]/[catch] is a
      match on it.  Loops run on a budget; running out of budget is the
      separate outcome [OutOfFuel], and budgets are proved sufficient. *)

From Stdlib Require Import ZArith QArith Ascii String List Lia Bool DecimalString.
From Stdlib Require DecimalPos DecimalFacts Znumtheory.
From stdpp Require Import base option list gmap strings.

Open Scope Z_scope.

(** ** Machine integers *)

Definition INT_MIN : Z := - 2 ^ 31.
Definition INT_MAX : Z := 2 ^ 31 - 1.
Definition SIZE_BITS : Z := 64.

(** Conversion to [int] (two's complement, 32 bits). *)
Definition to_int (z : Z) : Z := (z + 2 ^ 31) mod 2 ^ 32 - 2 ^ 31.

(** Conversion to [size_t] (unsigned, [SIZE_BITS] bits). *)
Definition to_size_t (z : Z) : Z := z mod 2 ^ SIZE_BITS.

(** [std::string::npos] is [static_cast<size_t>(-1)]. *)
Definition npos : Z := to_size_t (-1).

Definition in_int_range (z : Z) : bool := (INT_MIN <=? z) && (z <=? INT_MAX).

(** ** Outcomes of a C++ call *)

Inductive exn : Set :=
| invalid_argument
| out_of_range
| filesystem_error.

Inductive outcome (A : Type) : Type :=
| Ret (a : A)
| Throw (e : exn)
| OutOfFuel.
Arguments Ret {A} a.
Arguments Throw {A} e.
Arguments OutOfFuel {A}.

Global Instance outcome_ret : MRet outcome := fun A a => Ret a.
Global Instance outcome_bind : MBind outcome := fun A B f m =>
  match m with
  | Ret a => f a
  | Throw e => Throw e
  | OutOfFuel => OutOfFuel
  end.

(** [try { m } catch (...) { h }] *)
Definition try_catch_all {A} (m : outcome A) (h : outcome A) : outcome A :=
  match m with
  | Throw _ => h
  | r => r
  end.

Definition returns {A} (m : outcome A) : Prop := exists a, m = Ret a.

(** ** Text values *)

Definition text : Type := list ascii.

(** String literals of the examples. *)
Definition str (s : string) : text := list_ascii_of_string s.

Module CStd.

(** *** The parts of [<cctype>] and [<string>] the runtime calls *)

Definition code (c : ascii) : N := N_of_ascii c.

(** [std::isdigit]: the ten decimal digits, in every locale.  A [char]
    with the high bit set is outside the domain the C standard gives
    [isdigit]; the C libraries answer "no digit" there, and so does this
    definition. *)
Definition isdigit (c : ascii) : bool :=
  ((48 <=? code c) && (code c <=? 57))%N.

(** [std::isspace] in the "C" locale: space, \t, \n, \v, \f, \r. *)
Definition isspace (c : ascii) : bool :=
  ((code c =? 32) || ((9 <=? code c) && (code c <=? 13)))%N.

Definition digit_value (c : ascii) : Z := Z.of_N (code c) - 48.

(** [is_prefix p s]: [s.compare(0, p.length(), p) == 0]. *)
Fixpoint is_prefix (p s : text) : bool :=
  match p, s with
  | [], _ => true
  | _ :: _, [] => false
  | a :: p', b :: s' => Ascii.eqb a b && is_prefix p' s'
  end.

(** Scan for the first match of [search] in the suffix [s], which starts at
    position [pos] of the whole string. *)
Fixpoint find_scan (search s : text) (pos : nat) : option nat :=
  if is_prefix search s then Some pos
  else match s with
       | [] => None
       | _ :: s' => find_scan search s' (S pos)
       end.

(** [s.find(search, start)]; [None] stands for [npos]. *)
Definition find (s search : text) (start : nat) : option nat :=
  if (start <=? length s)%nat then find_scan search (drop start s) start
  else None.

(** Scan for the last match of [search] in the suffix [s]. *)
Fixpoint rfind_scan (search s : text) (pos : nat) : option nat :=
  match s with
  | [] => if is_prefix search [] then Some pos else None
  | _ :: s' =>
      match rfind_scan search s' (S pos) with
      | Some p => Some p
      | None => if is_prefix search s then Some pos else None
      end
  end.

(** [s.rfind(search)]; [None] stands for [npos]. *)
Definition rfind (s search : text) : option nat := rfind_scan search s 0.

(** [s.substr(pos, n)]: throws [std::out_of_range] when [pos > size()]. *)
Definition substr (s : text) (pos n : nat) : outcome text :=
  if (length s <? pos)%nat then Throw out_of_range
  else Ret (take n (drop pos s)).

(** [s.substr(pos)]: the count defaults to [npos], i.e. to the end. *)
Definition substr_from (s : text) (pos : nat) : outcome text :=
  if (length s <? pos)%nat then Throw out_of_range
  else Ret (drop pos s).

(** [s.replace(pos, len, to)]: throws [std::out_of_range] when
    [pos > size()]. *)
Definition string_replace (s : text) (pos len : nat) (to : text) : outcome text :=
  if (length s <? pos)%nat then Throw out_of_range
  else Ret (take pos s ++ to ++ drop (pos + len) s).

(** *** [std::stoi]

    [std::stoi(s)] calls [strtol(s.c_str(), &end, 10)]: leading white space
    is skipped, one optional sign is read, then the longest run of decimal
    digits.  No digit: [std::invalid_argument].  A value outside [int]
    (whether or not [strtol] itself saturated): [std::out_of_range].
    Characters after the digit run are left unread. *)

Fixpoint skip_space (s : text) : text :=
  match s with
  | c :: s' => if isspace c then skip_space s' else s
  | [] => []
  end.

Fixpoint digit_run (s : text) (acc : Z) : Z :=
  match s with
  | c :: s' => if isdigit c then digit_run s' (10 * acc + digit_value c) else acc
  | [] => acc
  end.

Definition starts_with_digit (s : text) : bool :=
  match s with
  | c :: _ => isdigit c
  | [] => false
  end.

Definition read_sign (s : text) : bool * text :=
  match s with
  | c :: s' =>
      if Ascii.eqb c "-" then (true, s')
      else if Ascii.eqb c "+" then (false, s')
      else (false, s)
  | [] => (false, [])
  end.

(** The subject sequence of [strtol] in base 10 and its exact value;
    [None] when no conversion can be performed. *)
Definition leading_integer (s : text) : option Z :=
  let '(neg, body) := read_sign (skip_space s) in
  if starts_with_digit body
  then Some (if neg then - digit_run body 0 else digit_run body 0)
  else None.

Definition stoi (s : text) : outcome Z :=
  match leading_integer s with
  | None => Throw invalid_argument
  | Some v => if in_int_range v then Ret v else Throw out_of_range
  end.

(** *** More of [<cctype>] and [<string>] *)

(** [::toupper] and [::tolower] in the "C" locale: the 26 letters of
    ASCII, every other character unchanged. *)
Definition toupper (c : ascii) : ascii :=
  if ((97 <=? code c) && (code c <=? 122))%N then ascii_of_N (code c - 32)
  else c.

Definition tolower (c : ascii) : ascii :=
  if ((65 <=? code c) && (code c <=? 90))%N then ascii_of_N (code c + 32)
  else c.

Definition in_set (set : text) (c : ascii) : bool := existsb (Ascii.eqb c) set.

(** [s.find_first_not_of(set)], scanning the suffix [s] that starts at
    position [pos]; [None] stands for [npos]. *)
Fixpoint find_first_not_of_scan (s set : text) (pos : nat) : option nat :=
  match s with
  | [] => None
  | c :: s' =>
      if in_set set c then find_first_not_of_scan s' set (S pos) else Some pos
  end.

Definition find_first_not_of (s set : text) : option nat :=
  find_first_not_of_scan s set 0.

(** [s.find_last_not_of(set)]. *)
Fixpoint find_last_not_of_scan (s set : text) (pos : nat) : option nat :=
  match s with
  | [] => None
  | c :: s' =>
      match find_last_not_of_scan s' set (S pos) with
      | Some p => Some p
      | None => if in_set set c then None else Some pos
      end
  end.

Definition find_last_not_of (s set : text) : option nat :=
  find_last_not_of_scan s set 0.

(** [s.substr(pos, n)] for a count [n] of type [size_t]: the substring has
    [min(n, size() - pos)] characters. *)
Definition substr_count (s : text) (pos : nat) (n : Z) : outcome text :=
  substr s pos (Z.to_nat (Z.min n (Z.of_nat (length s) - Z.of_nat pos))).

(** [std::to_string(int)]: the decimal digits, with a minus sign for a
    negative value. *)
Definition to_string (n : Z) : text := str (NilZero.string_of_int (Z.to_int n)).

(** *** [std::stod]

    [std::stod(s)] calls [strtod(s.c_str(), &end)].  After leading white
    space the subject sequence is the longest initial part of the form
    (C11 7.22.1.3): an optional sign, then a non-empty sequence of decimal
    digits optionally containing a decimal point, with an optional
    exponent part; or [0x] and a non-empty sequence of hexadecimal digits
    optionally containing a decimal point, with an optional binary
    exponent part; or INF or INFINITY; or NAN, optionally followed by a
    parenthesised sequence of letters, digits and underscores; letters of
    INF, INFINITY and NAN in either case.  No subject sequence:
    [std::invalid_argument].  The value of the subject sequence, or
    [std::out_of_range] when it does not fit, is the host's. *)

Record FloatHost : Type := {
  float : Type;
  strtod_value : text -> outcome float
}.

Definition isxdigit (c : ascii) : bool :=
  isdigit c || ((97 <=? code c) && (code c <=? 102))%N
            || ((65 <=? code c) && (code c <=? 70))%N.

Definition isalpha (c : ascii) : bool :=
  ((97 <=? code c) && (code c <=? 122))%N || ((65 <=? code c) && (code c <=? 90))%N.

(** The longest initial run of characters that satisfy [p], and the rest. *)
Fixpoint span (p : ascii -> bool) (s : text) : text * text :=
  match s with
  | c :: s' =>
      if p c then let '(run, rest) := span p s' in (c :: run, rest)
      else ([], s)
  | [] => ([], [])
  end.

Definition optional_sign (s : text) : text * text :=
  match s with
  | c :: s' =>
      if Ascii.eqb c "-" || Ascii.eqb c "+" then ([c], s') else ([], s)
  | [] => ([], [])
  end.

(** Digits, optionally containing a decimal point, at least one digit. *)
Definition mantissa (digit : ascii -> bool) (s : text) : option (text * text) :=
  let '(whole, r1) := span digit s in
  let '(fraction, r2) :=
    match r1 with
    | c :: r =>
        if Ascii.eqb c "." then let '(f, r') := span digit r in (c :: f, r')
        else ([], r1)
    | [] => ([], [])
    end in
  match whole, fraction with
  | [], [] | [], [_] => None
  | _, _ => Some (whole ++ fraction, r2)
  end.

(** The exponent part at the head of [s]: the letter, an optional sign and
    at least one decimal digit; empty when [s] does not start with one. *)
Definition exponent_part (letter : ascii -> bool) (s : text) : text :=
  match s with
  | e :: r =>
      if letter e then
        let '(sign, r1) := optional_sign r in
        match span isdigit r1 with
        | ([], _) => []
        | (digits, _) => e :: sign ++ digits
        end
      else []
  | [] => []
  end.

Definition decimal_float (s : text) : option text :=
  match mantissa isdigit s with
  | Some (m, rest) =>
      Some (m ++ exponent_part (fun c => Ascii.eqb c "e" || Ascii.eqb c "E") rest)
  | None => None
  end.

Definition hex_float (s : text) : option text :=
  match s with
  | z :: x :: r =>
      if Ascii.eqb z "0" && (Ascii.eqb x "x" || Ascii.eqb x "X") then
        match mantissa isxdigit r with
        | Some (m, rest) =>
            Some (z :: x :: m
                  ++ exponent_part (fun c => Ascii.eqb c "p" || Ascii.eqb c "P") rest)
        | None => None
        end
      else None
  | _ => None
  end.

(** [word] at the head of [s], ignoring case. *)
Definition word_ignoring_case (word s : text) : option text :=
  if is_prefix word (map tolower s) then Some (take (length word) s) else None.

Definition infinity_word (s : text) : option text :=
  match word_ignoring_case (str "infinity") s with
  | Some w => Some w
  | None => word_ignoring_case (str "inf") s
  end.

Definition nan_word (s : text) : option text :=
  match word_ignoring_case (str "nan") s with
  | Some w =>
      match drop 3 s with
      | c :: r =>
          if Ascii.eqb c "(" then
            let '(chars, r') := span (fun x => isdigit x || isalpha x || Ascii.eqb x "_") r in
            match r' with
            | c' :: _ =>
                if Ascii.eqb c' ")" then Some (w ++ c :: chars ++ [c']) else Some w
            | [] => Some w
            end
          else Some w
      | [] => Some w
      end
  | None => None
  end.

(** The subject sequence of [strtod] at the head of [s], [None] when there
    is none. *)
Definition float_subject (s : text) : option text :=
  let '(sign, r) := optional_sign s in
  let body :=
    match hex_float r with
    | Some b => Some b
    | None =>
        match decimal_float r with
        | Some b => Some b
        | None =>
            match infinity_word r with
            | Some b => Some b
            | None => nan_word r
            end
        end
    end in
  match body with
  | Some b => Some (sign ++ b)
  | None => None
  end.

Definition stod (H : FloatHost) (s : text) : outcome (float H) :=
  match float_subject (skip_space s) with
  | None => Throw invalid_argument
  | Some subject => strtod_value H subject
  end.

End CStd.

(** ** [string.hpp]: namespace [ljos::str] *)

Module Str.
Import CStd.

Definition len (s : text) : nat := length s.

Definition isEmpty (s : text) : bool :=
  match s with [] => true | _ => false end.

Definition slice (s : text) (start end_ : Z) : outcome text :=
  let len := to_int (Z.of_nat (length s)) in
  let start := if start <? 0 then Z.max 0 (to_int (len + start)) else start in
  let end_ := if end_ <? 0 then to_int (len + end_) else end_ in
  if (start >=? len) || (start >=? end_) then Ret []
  else substr s (Z.to_nat (to_size_t start))
                (Z.to_nat (to_size_t (to_int (Z.min end_ len - start)))).

(** [pos == npos ? -1 : pos] has type [size_t]: the literal [-1] is
    converted to [size_t] before it is returned. *)
Definition indexOf (s search : text) (start : nat) : Z :=
  match find s search start with
  | None => to_size_t (-1)
  | Some pos => Z.of_nat pos
  end.

Definition lastIndexOf (s search : text) : Z :=
  match rfind s search with
  | None => to_size_t (-1)
  | Some pos => Z.of_nat pos
  end.

Definition contains (s search : text) : bool :=
  match find s search 0 with
  | None => false
  | Some _ => true
  end.

Definition startsWith (s prefix : text) : bool :=
  if (length s <? length prefix)%nat then false
  else is_prefix prefix s.

Definition endsWith (s suffix : text) : bool :=
  if (length s <? length suffix)%nat then false
  else is_prefix suffix (drop (length s - length suffix) s).

(** [split]: the loop budget counts iterations of the [while] loop. *)
Fixpoint split_loop (fuel : nat) (s delimiter : text) (result : list text)
    (start : nat) (end_ : option nat) : outcome (list text) :=
  match end_ with
  | None =>
      part ← substr_from s start;
      Ret (result ++ [part])
  | Some e =>
      match fuel with
      | O => OutOfFuel
      | S fuel' =>
          part ← substr s start (e - start);
          let result := result ++ [part] in
          let start := (e + length delimiter)%nat in
          split_loop fuel' s delimiter result start (find s delimiter start)
      end
  end.

Definition split_budget (s : text) : nat := S (length s).

Definition split (s delimiter : text) : outcome (list text) :=
  if isEmpty delimiter then Ret (map (fun c => [c]) s)
  else split_loop (split_budget s) s delimiter [] 0 (find s delimiter 0).

Definition join (parts : list text) (delimiter : text) : text :=
  match parts with
  | [] => []
  | p0 :: rest => fold_left (fun oss p => oss ++ delimiter ++ p) rest p0
  end.

Fixpoint replace_loop (fuel : nat) (result from to : text) (pos : nat)
    : outcome text :=
  match find result from pos with
  | None => Ret result
  | Some p =>
      match fuel with
      | O => OutOfFuel
      | S fuel' =>
          result' ← string_replace result p (length from) to;
          replace_loop fuel' result' from to (p + length to)
      end
  end.

Definition replace (s from to : text) : outcome text :=
  if isEmpty from then Ret s
  else replace_loop (S (length s)) s from to 0.

Definition replaceFirst (s from to : text) : outcome text :=
  match find s from 0 with
  | None => Ret s
  | Some pos => string_replace s pos (length from) to
  end.

Definition toInt (s : text) (defaultValue : Z) : outcome Z :=
  try_catch_all (stoi s) (Ret defaultValue).

Definition isDigit (c : ascii) : bool := isdigit c.

Fixpoint isNumeric_loop (s : text) : bool :=
  match s with
  | [] => true
  | c :: s' =>
      if negb (isdigit c) && negb (Ascii.eqb c ".") && negb (Ascii.eqb c "-")
         && negb (Ascii.eqb c "+")
      then false
      else isNumeric_loop s'
  end.

Definition isNumeric (s : text) : bool :=
  if isEmpty s then false else isNumeric_loop s.

(** *** The remaining operations of [string.hpp] *)

Definition charAt (s : text) (index : nat) : ascii :=
  if (length s <=? index)%nat then Ascii.zero else nth index s Ascii.zero.

(** [start] and [end_] are [size_t] values; [end - start] is computed in
    [size_t], so it wraps when [end < start]. *)
Definition substring (s : text) (start end_ : Z) : outcome text :=
  if Z.of_nat (length s) <=? start then Ret []
  else substr_count s (Z.to_nat start) (to_size_t (end_ - start)).

Definition toUpper (s : text) : text := map toupper s.

Definition toLower (s : text) : text := map tolower s.

Definition capitalize (s : text) : text :=
  match s with
  | [] => []
  | c :: rest => toupper c :: rest
  end.

(** The set [" \t\n\r\f\v"] of the trimming functions. *)
Definition WHITESPACE : text :=
  [" "; "009"; "010"; "013"; "012"; "011"]%char.

Definition trimLeft (s : text) : outcome text :=
  match find_first_not_of s WHITESPACE with
  | None => Ret []
  | Some start => substr_from s start
  end.

Definition trimRight (s : text) : outcome text :=
  match find_last_not_of s WHITESPACE with
  | None => Ret []
  | Some e => substr s 0 (e + 1)
  end.

Definition trim (s : text) : outcome text :=
  left ← trimLeft s; trimRight left.

Fixpoint repeat_loop (n : nat) (s result : text) : text :=
  match n with
  | O => result
  | S n' => repeat_loop n' s (result ++ s)
  end.

Definition repeat (s : text) (count : Z) : text :=
  if count <=? 0 then [] else repeat_loop (Z.to_nat count) s [].

Definition padLeft (s : text) (width : nat) (fill : ascii) : text :=
  if (width <=? length s)%nat then s
  else replicate (width - length s) fill ++ s.

Definition padRight (s : text) (width : nat) (fill : ascii) : text :=
  if (width <=? length s)%nat then s
  else s ++ replicate (width - length s) fill.

Definition fromInt (n : Z) : text := to_string n.

Definition reverse (s : text) : text := rev s.

Definition toFloat (H : FloatHost) (s : text) (defaultValue : float H)
    : outcome (float H) :=
  try_catch_all (stod H s) (Ret defaultValue).

End Str.

(** ** [math.hpp]: namespace [ljos::math], random numbers *)

Module Math.

(** *** [std::mt19937], as the C++ standard defines it ([rand.eng.mers]):
    624 words of 32 bits and the index of the next word. *)

Definition word (z : Z) : Z := z mod 2 ^ 32.

Record mt19937 : Type := { mt_x : list Z; mt_i : nat }.

Fixpoint seed_fill (k : nat) (i prev : Z) : list Z :=
  match k with
  | O => []
  | S k' =>
      let v := word (1812433253 * Z.lxor prev (Z.shiftr prev 30) + i) in
      v :: seed_fill k' (i + 1) v
  end.

(** [gen.seed(value)]: the whole state is rebuilt from [value]. *)
Definition mt_seed (value : Z) : mt19937 :=
  let x0 := word value in
  {| mt_x := x0 :: seed_fill 623 1 x0; mt_i := 624 |}.

Definition nth_word (x : list Z) (i : nat) : Z := default 0 (x !! i).

Definition twist_step (x : list Z) (i : nat) : list Z :=
  let y := Z.lor (Z.land (nth_word x i) 0x80000000)
                 (Z.land (nth_word x ((i + 1) mod 624)) 0x7fffffff) in
  let v := Z.lxor (Z.lxor (nth_word x ((i + 397) mod 624)) (Z.shiftr y 1))
                  (if Z.odd y then 0x9908b0df else 0) in
  <[i := v]> x.

Definition twist (x : list Z) : list Z := fold_left twist_step (seq 0 624) x.

Definition temper (y : Z) : Z :=
  let y := Z.lxor y (Z.shiftr y 11) in
  let y := Z.lxor y (Z.land (word (Z.shiftl y 7)) 0x9d2c5680) in
  let y := Z.lxor y (Z.land (word (Z.shiftl y 15)) 0xefc60000) in
  Z.lxor y (Z.shiftr y 18).

(** [gen()]: one 32-bit draw. *)
Definition mt_next (g : mt19937) : Z * mt19937 :=
  let x := if (624 <=? mt_i g)%nat then twist (mt_x g) else mt_x g in
  let i := if (624 <=? mt_i g)%nat then O else mt_i g in
  (temper (nth_word x i), {| mt_x := x; mt_i := S i |}).

(** *** The distributions of [<random>]

    The standard fixes what [std::uniform_int_distribution] and
    [std::uniform_real_distribution] may return, not how they consume the
    engine; they are the host's.  A distribution object holds its two bounds
    and nothing else, so a call is a function of the bounds and the engine. *)

Record Distributions : Type := {
  double : Type;
  double_0 : double;
  double_1 : double;
  uniform_int_distribution : Z -> Z -> mt19937 -> Z * mt19937;
  uniform_real_distribution : double -> double -> mt19937 -> double * mt19937
}.

(** [rand.dist.uni.int]: for [a <= b] the result [i] satisfies
    [a <= i <= b]. *)
Definition uniform_int_in_bounds (D : Distributions) : Prop :=
  forall a b g, a <= b ->
    a <= fst (uniform_int_distribution D a b g) <= b.

(** *** Process state: the function-local static [gen] of
    [getRandomEngine], [None] until the first call. *)

Record process : Type := { gen : option mt19937 }.

(** A run of the program, as far as the random stream sees it: the calls
    it makes and what they return. *)
Inductive call (double : Type) : Type :=
| call_seed (s : Z)
| call_random
| call_randomInt (min max : Z)
| call_randomFloat (min max : double).
Arguments call_seed {double} s.
Arguments call_random {double}.
Arguments call_randomInt {double} min max.
Arguments call_randomFloat {double} min max.

Inductive output (double : Type) : Type :=
| out_void
| out_int (v : Z)
| out_double (v : double).
Arguments out_void {double}.
Arguments out_int {double} v.
Arguments out_double {double} v.

Section Random.
Context (D : Distributions).
(** What [std::random_device] yields when [gen] is first constructed. *)
Context (rd : Z).

Definition getRandomEngine (st : process) : mt19937 :=
  match gen st with
  | Some g => g
  | None => mt_seed rd
  end.

Definition random (st : process) : double D * process :=
  let '(v, g) := uniform_real_distribution D (double_0 D) (double_1 D)
                   (getRandomEngine st) in
  (v, {| gen := Some g |}).

Definition randomInt (min max : Z) (st : process) : Z * process :=
  let '(v, g) := uniform_int_distribution D min max (getRandomEngine st) in
  (v, {| gen := Some g |}).

Definition randomFloat (min max : double D) (st : process)
    : double D * process :=
  let '(v, g) := uniform_real_distribution D min max (getRandomEngine st) in
  (v, {| gen := Some g |}).

(** [seed(unsigned int s)] *)
Definition seed (s : Z) (st : process) : process :=
  let _ := getRandomEngine st in
  {| gen := Some (mt_seed (word s)) |}.

Definition perform (c : call (double D)) (st : process)
    : output (double D) * process :=
  match c with
  | call_seed s => (out_void, seed s st)
  | call_random => let '(v, st') := random st in (out_double v, st')
  | call_randomInt a b => let '(v, st') := randomInt a b st in (out_int v, st')
  | call_randomFloat a b =>
      let '(v, st') := randomFloat a b st in (out_double v, st')
  end.

Fixpoint run (calls : list (call (double D))) (st : process)
    : list (output (double D)) * process :=
  match calls with
  | [] => ([], st)
  | c :: calls' =>
      let '(o, st') := perform c st in
      let '(os, st'') := run calls' st' in
      (o :: os, st'')
  end.

End Random.

(** An instance of the host's distributions on exact rationals: one draw,
    reduced into the range. *)
Definition scaled_draw : Distributions := {|
  double := Q;
  double_0 := 0%Q;
  double_1 := 1%Q;
  uniform_int_distribution := fun a b g =>
    let '(x, g') := mt_next g in (a + x mod (b - a + 1), g');
  uniform_real_distribution := fun a b g =>
    let '(x, g') := mt_next g in
    ((a + (b - a) * (inject_Z x / inject_Z (2 ^ 32)))%Q, g')
|}.

End Math.

(** ** [math.hpp]: integer functions

    Signed arithmetic that leaves its type has no defined result in C++;
    it is the outcome [SignedOverflow] here.  The loops of [gcd] and
    [isPrime] run on a budget, [OutOfBudget] when it is used up. *)

Module MathInt.

Inductive arith (A : Type) : Type :=
| Val (a : A)
| SignedOverflow
| OutOfBudget.
Arguments Val {A} a.
Arguments SignedOverflow {A}.
Arguments OutOfBudget {A}.

Definition arith_bind {A B} (m : arith A) (f : A -> arith B) : arith B :=
  match m with
  | Val a => f a
  | SignedOverflow => SignedOverflow
  | OutOfBudget => OutOfBudget
  end.

Definition LLONG_MIN : Z := - 2 ^ 63.
Definition LLONG_MAX : Z := 2 ^ 63 - 1.

(** The result of an [int] operation whose exact value is [z]. *)
Definition int_result (z : Z) : arith Z :=
  if in_int_range z then Val z else SignedOverflow.

(** The result of a [long long] operation whose exact value is [z]. *)
Definition llong_result (z : Z) : arith Z :=
  if (LLONG_MIN <=? z) && (z <=? LLONG_MAX) then Val z else SignedOverflow.

(** [std::abs(int)] *)
Definition abs (x : Z) : arith Z := int_result (Z.abs x).

Definition min (a b : Z) : Z := Z.min a b.
Definition max (a b : Z) : Z := Z.max a b.

Definition clamp (x lo hi : Z) : Z := Z.max lo (Z.min x hi).

Fixpoint gcd_loop (fuel : nat) (a b : Z) : arith Z :=
  if b =? 0 then Val a
  else match fuel with
       | O => OutOfBudget
       | S fuel' => gcd_loop fuel' b (Z.rem a b)
       end.

Definition gcd (a b : Z) : arith Z :=
  arith_bind (abs a) (fun a =>
  arith_bind (abs b) (fun b =>
  gcd_loop (S (Z.to_nat b)) a b)).

Definition lcm (a b : Z) : arith Z :=
  if (a =? 0) || (b =? 0) then Val 0
  else
    arith_bind (gcd a b) (fun g =>
    arith_bind (int_result (Z.quot a g * b)) abs).

(** The [for] loop of [factorial]: [k] iterations are left, [i] is the
    loop variable. *)
Fixpoint factorial_loop (k : nat) (i result : Z) : arith Z :=
  match k with
  | O => Val result
  | S k' =>
      arith_bind (llong_result (result * i)) (fun result =>
      factorial_loop k' (i + 1) result)
  end.

Definition factorial (n : Z) : arith Z :=
  if n <? 0 then Val 0
  else if n <=? 1 then Val 1
  else factorial_loop (Z.to_nat (n - 1)) 2 1.

Fixpoint fibonacci_loop (k : nat) (a b : Z) : arith Z :=
  match k with
  | O => Val b
  | S k' =>
      arith_bind (llong_result (a + b)) (fun c =>
      fibonacci_loop k' b c)
  end.

Definition fibonacci (n : Z) : arith Z :=
  if n <=? 0 then Val 0
  else if n =? 1 then Val 1
  else fibonacci_loop (Z.to_nat (n - 1)) 0 1.

(** The loop of [isPrime]; the test [i * i <= n] multiplies in [int]. *)
Fixpoint isPrime_loop (fuel : nat) (n i : Z) : arith bool :=
  match fuel with
  | O => OutOfBudget
  | S fuel' =>
      arith_bind (int_result (i * i)) (fun sq =>
      if sq <=? n then
        if Z.rem n i =? 0 then Val false
        else isPrime_loop fuel' n (i + 2)
      else Val true)
  end.

(** No [int] has a square root above 46341, and [i] grows by 2. *)
Definition isPrime_budget : nat := Z.to_nat 23171.

Definition isPrime (n : Z) : arith bool :=
  if n <? 2 then Val false
  else if n =? 2 then Val true
  else if Z.rem n 2 =? 0 then Val false
  else isPrime_loop isPrime_budget n 3.

End MathInt.

(** ** [io.hpp]: namespace [ljos::io], formatted output *)

Module Io.
Import CStd.

(** The values a compiled program passes through the ellipsis of
    [format]: an [int], a [double] (its 64 bits), or a [const char*] (the
    characters before the terminator). *)
Inductive arg : Type :=
| arg_int (n : Z)
| arg_double (bits : Z)
| arg_cstr (s : text).

Inductive kind : Set := kind_int | kind_double | kind_cstr.

Definition kind_of (a : arg) : kind :=
  match a with
  | arg_int _ => kind_int
  | arg_double _ => kind_double
  | arg_cstr _ => kind_cstr
  end.

(** What a [printf]-family call does: it produces characters, or its
    behaviour is undefined (C11 7.21.6.1p2 and p9: an argument is missing
    or has the wrong type, or the conversion specification is incomplete),
    or the template leaves the fragment modelled here (the conversions
    [%d], [%i], [%c], [%s] and [%%], without flags, width or precision). *)
Inductive printed : Type :=
| Output (out : text)
| Undefined
| NotModelled.

Definition emit (chars : text) (rest : printed) : printed :=
  match rest with
  | Output out => Output (chars ++ out)
  | r => r
  end.

(** [s.c_str()] read as a C string: the characters before the first NUL. *)
Fixpoint c_str (s : text) : text :=
  match s with
  | [] => []
  | c :: s' => if Ascii.eqb c Ascii.zero then [] else c :: c_str s'
  end.

Definition render_int (n : Z) : text := str (NilZero.string_of_int (Z.to_int n)).

Definition render_char (n : Z) : text := [ascii_of_N (Z.to_N (n mod 256))].

Fixpoint vprintf (fmt : text) (args : list arg) {struct fmt} : printed :=
  match fmt with
  | [] => Output []
  | c :: fmt' =>
      if Ascii.eqb c "%" then
        match fmt' with
        | [] => Undefined
        | k :: rest =>
            if Ascii.eqb k "%" then emit ["%"%char] (vprintf rest args)
            else if Ascii.eqb k "d" || Ascii.eqb k "i" then
              match args with
              | arg_int n :: args' => emit (render_int n) (vprintf rest args')
              | _ => Undefined
              end
            else if Ascii.eqb k "c" then
              match args with
              | arg_int n :: args' => emit (render_char n) (vprintf rest args')
              | _ => Undefined
              end
            else if Ascii.eqb k "s" then
              match args with
              | arg_cstr s :: args' => emit (c_str s) (vprintf rest args')
              | _ => Undefined
              end
            else NotModelled
        end
      else emit [c] (vprintf fmt' args)
  end.

(** [snprintf]'s return value: the number of characters the complete
    output has, or a negative value when that number does not fit [int]. *)
Definition snprintf_result (out : text) : Z :=
  if Z.of_nat (length out) <=? INT_MAX then Z.of_nat (length out) else -1.

Definition format (fmt : text) (args : list arg) : printed :=
  match vprintf (c_str fmt) args with
  | Output out =>
      let n := snprintf_result out in
      if n =? INT_MAX then Undefined (* [+ 1] overflows [int] *)
      else
        let size := n + 1 in
        if size <=? 0 then Output []
        else Output (take (Z.to_nat (size - 1)) out)
  | r => r
  end.

(** The placeholders of a template, in order, with the kind of argument
    each one reads; [None] outside the modelled fragment, and for a
    template that ends inside a conversion specification. *)
Fixpoint placeholders (fmt : text) {struct fmt} : option (list kind) :=
  match fmt with
  | [] => Some []
  | c :: fmt' =>
      if Ascii.eqb c "%" then
        match fmt' with
        | [] => None
        | k :: rest =>
            if Ascii.eqb k "%" then placeholders rest
            else if Ascii.eqb k "d" || Ascii.eqb k "i" || Ascii.eqb k "c" then
              cons kind_int <$> placeholders rest
            else if Ascii.eqb k "s" then cons kind_cstr <$> placeholders rest
            else None
        end
      else placeholders fmt'
  end.

Definition kind_eqb (k1 k2 : kind) : bool :=
  match k1, k2 with
  | kind_int, kind_int | kind_double, kind_double | kind_cstr, kind_cstr => true
  | _, _ => false
  end.

(** Every placeholder finds an argument of its kind; arguments beyond the
    last placeholder are not looked at. *)
Fixpoint supplied (ks : list kind) (args : list arg) : bool :=
  match ks, args with
  | [], _ => true
  | _ :: _, [] => false
  | k :: ks', a :: args' => kind_eqb k (kind_of a) && supplied ks' args'
  end.

(** [format] over the [snprintf] of the C library, whichever it is: the
    two calls of the source with the library function as a parameter.
    [format] above is [format_with vprintf]. *)
Definition format_with (snprintf : text -> list arg -> printed)
    (fmt : text) (args : list arg) : printed :=
  match snprintf (c_str fmt) args with
  | Output out =>
      let n := snprintf_result out in
      if n =? INT_MAX then Undefined (* [+ 1] overflows [int] *)
      else
        let size := n + 1 in
        if size <=? 0 then Output []
        else Output (take (Z.to_nat (size - 1)) out)
  | r => r
  end.

(** A library [snprintf] does on the conversions %d, %i, %c, %s and %%
    what [vprintf] says. *)
Definition models_fragment (snprintf : text -> list arg -> printed) : Prop :=
  forall fmt args ks,
    placeholders fmt = Some ks -> snprintf fmt args = vprintf fmt args.

End Io.

(** ** [fs.hpp]: namespace [ljos::fs], directory creation *)

Module Fs.

(** A resolved path is the list of its components, innermost first:
    the parent of [c :: p] is [p], and the root is [[]].  The host resolves
    the text a program passes to such a path. *)
Abbreviation path := (list string).

Inductive node : Set := regular_file | directory.

(** The file tree of the host. *)
Definition is_directory (t : gmap path node) (p : path) : bool :=
  match t !! p with
  | Some directory => true
  | _ => false
  end.

(** [std::filesystem::create_directory(p)]: creates the one directory [p];
    [false], and no error, when [p] is a directory already; an error when
    [p] is something else or its parent is no directory. *)
Definition create_directory (p : path) (t : gmap path node)
    : outcome (bool * gmap path node) :=
  match t !! p with
  | Some directory => Ret (false, t)
  | Some regular_file => Throw filesystem_error
  | None =>
      match p with
      | [] => Throw filesystem_error
      | _ :: parent =>
          if is_directory t parent then Ret (true, <[p := directory]> t)
          else Throw filesystem_error
      end
  end.

(** [std::filesystem::create_directories(p)]: calls [create_directory] for
    each element of [p] that does not exist; returns [true] if a directory
    was newly created for [p], [false] otherwise. *)
Fixpoint create_directories (p : path) (t : gmap path node)
    : outcome (bool * gmap path node) :=
  match t !! p with
  | Some directory => Ret (false, t)
  | Some regular_file => Throw filesystem_error
  | None =>
      match p with
      | [] => Throw filesystem_error
      | _ :: parent =>
          r ← create_directories parent t;
          create_directory p (snd r)
      end
  end.

Definition mkdir (p : path) (t : gmap path node)
    : outcome (bool * gmap path node) :=
  create_directory p t.

Definition mkdirp (p : path) (t : gmap path node)
    : outcome (bool * gmap path node) :=
  create_directories p t.

(** A small tree: [/] and [/tmp]. *)
Definition root_and_tmp : gmap path node :=
  <[ ["tmp"%string] := directory ]> (<[ [] := directory ]> ∅).

(** The invariant of a file tree: the root is a directory, and whatever
    exists lies in a directory. *)
Definition tree_well_formed (t : gmap path node) : Prop :=
  t !! [] = Some directory /\
  forall c parent n, t !! (c :: parent) = Some n -> t !! parent = Some directory.

End Fs.

(** ** Contract-side definitions

    The text contract says what [slice] and [isNumeric] compute in its own
    words; these definitions follow those words and are compared with the
    code below. *)

Module Contract.

(** "resolves negative indices as [length + index]" *)
Definition resolve (len i : Z) : Z := if i <? 0 then len + i else i.

(** "clamps both bounds into [[0, length]]" *)
Definition clamp (len i : Z) : Z := Z.max 0 (Z.min i len).

(** "returns an empty value if [start >= end] after clamping" *)
Definition slice (s : text) (start end_ : Z) : text :=
  let len := Z.of_nat (length s) in
  let a := clamp len (resolve len start) in
  let b := clamp len (resolve len end_) in
  if a >=? b then [] else take (Z.to_nat (b - a)) (drop (Z.to_nat a) s).

(** "a decimal digit, '.', '-', or '+'" *)
Definition numeric_char (c : ascii) : Prop := In c (str "0123456789.-+").

Definition numeric_charb (c : ascii) : bool :=
  existsb (Ascii.eqb c) (str "0123456789.-+").

End Contract.


(** * Properties *)

Import CStd Str.

(** ** Machine integers *)

Lemma to_int_in_range z : INT_MIN <= z <= INT_MAX -> to_int z = z.
Proof.
  unfold INT_MIN, INT_MAX, to_int. intros H.
  rewrite Z.mod_small; lia.
Qed.

Lemma to_size_t_small z : 0 <= z < 2 ^ 64 -> to_size_t z = z.
Proof. unfold to_size_t, SIZE_BITS. intros H. now rewrite Z.mod_small. Qed.

Lemma npos_value : npos = 18446744073709551615.
Proof. reflexivity. Qed.

(** ** Searching in a text *)

Lemma is_prefix_true p s : is_prefix p s = true <-> exists r, s = p ++ r.
Proof.
  revert s. induction p as [|a p IH]; intros s; simpl.
  - split; [intros _; now exists s | reflexivity].
  - destruct s as [|b s].
    + split; [discriminate | intros [r Hr]; discriminate].
    + rewrite andb_true_iff, Ascii.eqb_eq, IH. split.
      * intros [-> [r ->]]. now exists r.
      * intros [r Hr]. injection Hr as -> ->. split; [reflexivity | now exists r].
Qed.

Lemma is_prefix_nil s : is_prefix [] s = true.
Proof. reflexivity. Qed.

Lemma find_scan_bounds d s pos e :
  find_scan d s pos = Some e ->
  exists k, e = (pos + k)%nat /\ (k <= length s)%nat /\
            is_prefix d (drop k s) = true.
Proof.
  revert pos. induction s as [|c s IH]; intros pos; simpl.
  - destruct (is_prefix d []) eqn:Hp; [|discriminate].
    intros [= <-]. exists O. repeat split; [lia | lia | exact Hp].
  - destruct (is_prefix d (c :: s)) eqn:Hp.
    + intros [= <-]. exists O. repeat split; [lia | lia | exact Hp].
    + intros H. apply IH in H as (k & -> & Hk & Hd).
      exists (S k). repeat split; [lia | lia | exact Hd].
Qed.

Lemma find_bounds s d start e :
  find s d start = Some e ->
  (start <= e <= length s)%nat /\ is_prefix d (drop e s) = true.
Proof.
  unfold find. destruct (start <=? length s)%nat eqn:Hle; [|discriminate].
  apply Nat.leb_le in Hle. intros H.
  apply find_scan_bounds in H as (k & -> & Hk & Hd).
  rewrite length_drop in Hk. rewrite drop_drop in Hd.
  split; [lia | exact Hd].
Qed.

Lemma prefix_at_split d s e :
  (e <= length s)%nat ->
  is_prefix d (drop e s) = true ->
  drop e s = d ++ drop (e + length d) s /\ (e + length d <= length s)%nat.
Proof.
  intros He H. apply is_prefix_true in H as [r Hr].
  assert (Hd : drop (e + length d) s = r).
  { rewrite <- drop_drop, Hr. now rewrite drop_app_length. }
  split.
  - now rewrite Hd.
  - pose proof (f_equal length Hr) as Hl.
    rewrite length_drop, length_app in Hl. lia.
Qed.

Lemma find_scan_none_iff_rfind d s pos :
  find_scan d s pos = None <-> rfind_scan d s pos = None.
Proof.
  revert pos. induction s as [|c s IH]; intros pos; simpl.
  - reflexivity.
  - destruct (is_prefix d (c :: s)) eqn:Hp.
    + split; [discriminate|].
      destruct (rfind_scan d s (S pos)); discriminate.
    + rewrite IH. destruct (rfind_scan d s (S pos)); split; congruence.
Qed.

Lemma contains_false_find s t : contains s t = false <-> find s t 0 = None.
Proof.
  unfold contains. destruct (find s t 0); split; congruence.
Qed.

Lemma contains_false_rfind s t : contains s t = false <-> rfind s t = None.
Proof.
  rewrite contains_false_find. unfold find, rfind. simpl.
  apply find_scan_none_iff_rfind.
Qed.

Lemma search_examples :
  indexOf (str "abcabc") (str "bc") 0 = 1 /\
  indexOf (str "abcabc") (str "bc") 2 = 4 /\
  lastIndexOf (str "abcabc") (str "bc") = 4 /\
  lastIndexOf (str "abc") (str "") = 3 /\
  contains (str "abcabc") (str "ca") = true /\
  startsWith (str "abc") (str "ab") = true /\
  endsWith (str "abc") (str "bc") = true.
Proof. repeat split. Qed.

(** A found position is never the sentinel, for a string of a real length. *)
Lemma indexOf_npos_iff_absent s t :
  Z.of_nat (length s) < npos ->
  indexOf s t 0 = npos <-> contains s t = false.
Proof.
  intros Hlen. unfold indexOf, contains.
  destruct (find s t 0) as [e|] eqn:Hf.
  - apply find_bounds in Hf as [He _].
    split; [intros H; lia | discriminate].
  - split; reflexivity.
Qed.

(** C2. When the search text is absent, [indexOf] and [lastIndexOf] return
    the literal [-1] converted to [size_t], the largest unsigned value
    [2^64 - 1]; the signed value [-1] is not what the caller receives. *)
Theorem indexOf_absent_wraps (s t : text) :
  contains s t = false ->
  indexOf s t 0 = 2 ^ 64 - 1 /\ lastIndexOf s t = 2 ^ 64 - 1 /\
  indexOf s t 0 <> -1 /\ lastIndexOf s t <> -1.
Proof.
  intros H. unfold indexOf, lastIndexOf.
  pose proof (proj1 (contains_false_find s t) H) as ->.
  pose proof (proj1 (contains_false_rfind s t) H) as ->.
  repeat split; try reflexivity; discriminate.
Qed.

Lemma indexOf_absent_wraps_witness :
  contains (str "abc") (str "x") = false /\
  indexOf (str "abc") (str "x") 0 = 18446744073709551615 /\
  lastIndexOf (str "abc") (str "x") = 18446744073709551615.
Proof.
  split; [reflexivity|].
  pose proof (indexOf_absent_wraps (str "abc") (str "x") eq_refl)
    as (H1 & H2 & _).
  split; [exact H1 | exact H2].
Defined.

(** C6. [indexOf] never returns the signed value [-1], whether or not
    [contains] holds: its result is a [size_t].  For "x" in "abc",
    [contains] is false and [indexOf] is [2^64 - 1]. *)
Theorem indexOf_never_minus_one (s t : text) :
  indexOf s t 0 <> -1 /\
  contains (str "abc") (str "x") = false /\
  indexOf (str "abc") (str "x") 0 = 18446744073709551615.
Proof.
  split; [|split; reflexivity].
  unfold indexOf. destruct (find s t 0) as [e|].
  - lia.
  - discriminate.
Qed.

(** ** Replacing *)

(** The loop of [replace] ends within its budget and never reads outside
    the text, for every non-empty search text. *)
Lemma replace_loop_returns from to :
  from <> [] ->
  forall fuel result pos,
    (pos <= length result)%nat -> (length result - pos < fuel)%nat ->
    returns (replace_loop fuel result from to pos).
Proof.
  intros Hne. induction fuel as [|fuel IH]; intros result pos Hpos Hfuel; [lia|].
  cbn [replace_loop].
  destruct (find result from pos) as [p|] eqn:Hfind; [|now eexists].
  apply find_bounds in Hfind as [[Hp Hpl] Hpre].
  apply prefix_at_split in Hpre as [_ Hlen]; [|exact Hpl].
  assert (0 < length from)%nat by (destruct from; simpl; [congruence | lia]).
  unfold string_replace.
  destruct (length result <? p)%nat eqn:Hlt; [apply Nat.ltb_lt in Hlt; lia|].
  cbn. apply IH; rewrite !length_app, length_take, length_drop; lia.
Qed.

Lemma replace_returns s from to : returns (replace s from to).
Proof.
  unfold replace. destruct from as [|c from]; [now eexists|].
  cbn [isEmpty]. apply replace_loop_returns; [discriminate | lia | lia].
Qed.

Lemma replace_examples :
  replace (str "a-b-c") (str "-") (str "--") = Ret (str "a--b--c") /\
  replace (str "aaa") (str "aa") (str "a") = Ret (str "aa") /\
  replaceFirst (str "a-b-c") (str "-") (str "+") = Ret (str "a+b-c").
Proof. repeat split. Qed.

(** C3. With an empty search text [replace] returns its input, while
    [replaceFirst] finds the empty text at position 0 and inserts the
    replacement in front of the input. *)
Theorem replace_empty_search (s t : text) :
  replace s [] t = Ret s /\ replaceFirst s [] t = Ret (t ++ s).
Proof.
  split.
  - reflexivity.
  - unfold replaceFirst, find. destruct s; reflexivity.
Qed.

Lemma replaceFirst_empty_search_example :
  replaceFirst (str "abc") (str "") (str "X") = Ret (str "Xabc").
Proof. reflexivity. Qed.

(** ** Slicing *)





(** ** Splitting and joining *)

Lemma join_fold_app d rest x y :
  fold_left (fun oss p => oss ++ d ++ p) rest (x ++ y)
  = x ++ fold_left (fun oss p : text => oss ++ d ++ p) rest y.
Proof.
  revert y. induction rest as [|a rest IH]; intros y; simpl.
  - reflexivity.
  - rewrite <- IH. now rewrite <- app_assoc.
Qed.

Lemma join_cons p tail d :
  tail <> [] -> join (p :: tail) d = p ++ d ++ join tail d.
Proof.
  destruct tail as [|q r]; [congruence|]. intros _. simpl.
  rewrite join_fold_app. f_equal. apply (join_fold_app d r d q).
Qed.

(** The loop of [split] ends within its budget, appends at least one
    component, and the appended components joined by the delimiter are the
    unread rest of the input. *)
Lemma split_loop_joins s d :
  d <> [] ->
  forall fuel result start,
    (start <= length s)%nat -> (length s - start < fuel)%nat ->
    exists tail,
      split_loop fuel s d result start (find s d start) = Ret (result ++ tail)
      /\ tail <> [] /\ join tail d = drop start s.
Proof.
  intros Hd. induction fuel as [|fuel IH]; intros result start Hs Hf; [lia|].
  destruct (find s d start) as [e|] eqn:Hfind.
  - apply find_bounds in Hfind as [[Hse Hel] Hp].
    apply prefix_at_split in Hp as [Hsplit Hlen]; [|exact Hel].
    assert (0 < length d)%nat by (destruct d; simpl; [congruence | lia]).
    simpl. unfold substr.
    destruct (length s <? start)%nat eqn:Hlt;
      [apply Nat.ltb_lt in Hlt; lia|]. simpl.
    destruct (IH (result ++ [take (e - start) (drop start s)])
                 (e + length d)%nat) as (tail & Hrun & Hne & Hjoin);
      [lia | lia |].
    exists (take (e - start) (drop start s) :: tail). split; [|split].
    + rewrite <- app_assoc in Hrun. exact Hrun.
    + discriminate.
    + rewrite join_cons by exact Hne. rewrite Hjoin, <- Hsplit.
      replace e with (start + (e - start))%nat at 2 by lia.
      rewrite <- drop_drop. apply take_drop.
  - exists [drop start s]. split; [|split].
    + destruct fuel; simpl; unfold substr_from;
        (destruct (length s <? start)%nat eqn:Hlt;
         [apply Nat.ltb_lt in Hlt; lia | reflexivity]).
    + discriminate.
    + reflexivity.
Qed.

(** [join] undoes [split], for every non-empty delimiter. *)
Lemma join_split s d :
  d <> [] ->
  exists parts, split s d = Ret parts /\ parts <> [] /\ join parts d = s.
Proof.
  intros Hd. unfold split, split_budget.
  destruct d as [|c d]; [congruence|]. simpl isEmpty. cbv iota.
  destruct (split_loop_joins s (c :: d) Hd (S (length s)) [] 0%nat)
    as (tail & Hrun & Hne & Hjoin); [lia | lia |].
  exists tail. repeat split; assumption.
Qed.

Lemma split_absent s d :
  d <> [] -> contains s d = false -> split s d = Ret [s].
Proof.
  intros Hd Hc. apply contains_false_find in Hc.
  unfold split, split_budget. destruct d as [|c d]; [congruence|].
  simpl isEmpty. cbv iota. rewrite Hc. reflexivity.
Qed.

(** C7. For a non-empty delimiter [split] returns within its loop budget,
    yields at least one component, yields the whole text alone when the
    delimiter does not occur in it, and [join] gives the text back when no
    component contains the delimiter. *)
Theorem split_join_roundtrip (s d : text) :
  d <> [] ->
  exists parts,
    split s d = Ret parts /\
    (1 <= length parts)%nat /\
    (contains s d = false -> parts = [s]) /\
    (Forall (fun part => contains part d = false) parts -> join parts d = s).
Proof.
  intros Hd. destruct (join_split s d Hd) as (parts & Hrun & Hne & Hjoin).
  exists parts. split; [exact Hrun|]. split; [|split].
  - destruct parts; [congruence | simpl; lia].
  - intros Hc. rewrite (split_absent s d Hd Hc) in Hrun. congruence.
  - intros _. exact Hjoin.
Qed.

Lemma split_join_roundtrip_witness :
  exists parts,
    split (str "a,b,,c") (str ",") = Ret parts /\
    (1 <= length parts)%nat /\
    (contains (str "a,b,,c") (str ",") = false -> parts = [str "a,b,,c"]) /\
    (Forall (fun part => contains part (str ",") = false) parts ->
     join parts (str ",") = str "a,b,,c").
Proof.
  apply (split_join_roundtrip (str "a,b,,c") (str ",")). discriminate.
Defined.

Lemma split_join_example :
  split (str "a,b,,c") (str ",") = Ret [str "a"; str "b"; str ""; str "c"] /\
  Forall (fun part => contains part (str ",") = false)
         [str "a"; str "b"; str ""; str "c"] /\
  join [str "a"; str "b"; str ""; str "c"] (str ",") = str "a,b,,c".
Proof.
  split; [reflexivity|]. split; [|reflexivity].
  repeat constructor.
Qed.

(** ** Parsing integers *)

Lemma skip_space_app s r :
  skip_space s <> [] -> skip_space (s ++ r) = skip_space s ++ r.
Proof.
  induction s as [|c s IH]; simpl; [congruence|].
  destruct (isspace c); [exact IH | reflexivity].
Qed.

Lemma read_sign_app x r :
  snd (read_sign x) <> [] ->
  read_sign (x ++ r) = (fst (read_sign x), snd (read_sign x) ++ r).
Proof.
  destruct x as [|c x]; simpl; [congruence|].
  destruct (Ascii.eqb c "-"); [reflexivity|].
  destruct (Ascii.eqb c "+"); reflexivity.
Qed.

Lemma read_sign_nonempty x : snd (read_sign x) <> [] -> x <> [].
Proof. destruct x; simpl; congruence. Qed.

Lemma digit_run_stops body c t acc :
  isdigit c = false -> digit_run (body ++ c :: t) acc = digit_run body acc.
Proof.
  intros Hc. revert acc. induction body as [|b body IH]; intros acc; simpl.
  - now rewrite Hc.
  - destruct (isdigit b); [apply IH | reflexivity].
Qed.

Lemma starts_with_digit_nonempty body : starts_with_digit body = true -> body <> [].
Proof. destruct body; simpl; congruence. Qed.

(** Whatever follows a non-digit is never read. *)
Lemma leading_integer_ignores_tail s c t v :
  leading_integer s = Some v -> isdigit c = false ->
  leading_integer (s ++ c :: t) = Some v.
Proof.
  unfold leading_integer. intros H Hc.
  destruct (read_sign (skip_space s)) as [neg body] eqn:Hsign.
  destruct (starts_with_digit body) eqn:Hdig; [|discriminate].
  pose proof (starts_with_digit_nonempty body Hdig) as Hne.
  assert (Hbody : snd (read_sign (skip_space s)) <> []) by now rewrite Hsign.
  rewrite skip_space_app by exact (read_sign_nonempty _ Hbody).
  rewrite read_sign_app by exact Hbody. rewrite Hsign. simpl.
  replace (starts_with_digit (body ++ c :: t)) with true
    by (destruct body; [congruence | exact (eq_sym Hdig)]).
  now rewrite digit_run_stops.
Qed.

Lemma toInt_value s d :
  toInt s d = Ret (match leading_integer s with
                   | Some v => if in_int_range v then v else d
                   | None => d
                   end).
Proof.
  unfold toInt, stoi. destruct (leading_integer s) as [v|]; [|reflexivity].
  destruct (in_int_range v); reflexivity.
Qed.

Lemma stoi_examples :
  stoi (str "  -12") = Ret (-12) /\
  stoi (str "+7 apples") = Ret 7 /\
  stoi (str "2147483647") = Ret 2147483647 /\
  stoi (str "2147483648") = Throw out_of_range /\
  stoi (str "-2147483648") = Ret (-2147483648) /\
  stoi (str "") = Throw invalid_argument /\
  stoi (str "- 1") = Throw invalid_argument.
Proof. repeat split. Qed.

(** C1 (as stated) fails: the text "42x" is read as 42. *)
Lemma toInt_trailing_text_counterexample :
  toInt (str "42x") (-1) = Ret 42 /\ toInt (str "42x") (-1) <> Ret (-1).
Proof. split; [reflexivity | discriminate]. Qed.

(** C1 (amended). [toInt] never raises.  It returns the default when the
    text, after leading white space and one optional sign, does not start
    with a digit, and when the integer it starts with does not fit [int];
    otherwise it returns that leading integer, and the characters after it
    are ignored: "42x" and "42" both give 42. *)
Theorem toInt_reads_leading_integer (s : text) (d : Z) :
  returns (toInt s d) /\
  (leading_integer s = None -> toInt s d = Ret d) /\
  (forall v, leading_integer s = Some v ->
     toInt s d = Ret (if in_int_range v then v else d)) /\
  (forall c t, is_Some (leading_integer s) -> isdigit c = false ->
     toInt (s ++ c :: t) d = toInt s d) /\
  toInt (str "42x") (-1) = Ret 42 /\
  toInt (str "42") (-1) = Ret 42.
Proof.
  repeat split.
  - rewrite toInt_value. eexists; reflexivity.
  - intros H. now rewrite toInt_value, H.
  - intros v H. now rewrite toInt_value, H.
  - intros c t [v Hv] Hc.
    now rewrite !toInt_value, (leading_integer_ignores_tail s c t v Hv Hc), Hv.
Qed.

Lemma toInt_reads_leading_integer_witness :
  toInt (str " -17" ++ "k"%char :: str "9") 0 = toInt (str " -17") 0 /\
  toInt (str "x1") 5 = Ret 5.
Proof.
  split.
  - apply (toInt_reads_leading_integer (str " -17") 0);
      [eexists; reflexivity | reflexivity].
  - apply (toInt_reads_leading_integer (str "x1") 5). reflexivity.
Defined.

(** ** Numeric-looking texts *)

Lemma numeric_charb_spec c : Contract.numeric_charb c = true <-> Contract.numeric_char c.
Proof.
  unfold Contract.numeric_charb, Contract.numeric_char. rewrite existsb_exists. split.
  - intros (x & Hin & Heq). apply Ascii.eqb_eq in Heq. now subst.
  - intros H. exists c. split; [exact H | apply Ascii.eqb_refl].
Qed.

Lemma isNumeric_test c :
  negb (isdigit c) && negb (Ascii.eqb c ".") && negb (Ascii.eqb c "-")
    && negb (Ascii.eqb c "+") = negb (Contract.numeric_charb c).
Proof. destruct c as [[] [] [] [] [] [] [] []]; reflexivity. Qed.

Lemma isNumeric_loop_spec s :
  isNumeric_loop s = true <-> Forall Contract.numeric_char s.
Proof.
  induction s as [|c s IH]; simpl.
  - split; [constructor | reflexivity].
  - rewrite isNumeric_test. destruct (Contract.numeric_charb c) eqn:Hc; simpl.
    + rewrite IH. split.
      * intros H. constructor; [now apply numeric_charb_spec | exact H].
      * intros H. now inversion H.
    + split; [discriminate|]. intros H. inversion H as [|? ? Hn _]; subst.
      apply numeric_charb_spec in Hn. congruence.
Qed.

(** C10 (as stated) fails for its second example: [toInt] does parse
    "1.2.3", as 1. *)
Lemma isNumeric_dotted_text_parses :
  isNumeric (str "1.2.3") = true /\ stoi (str "1.2.3") = Ret 1 /\
  toInt (str "1.2.3") (-1) <> Ret (-1).
Proof. repeat split; try reflexivity; discriminate. Qed.

(** C10 (amended). [isNumeric s] holds exactly when [s] is non-empty and
    each of its characters is a decimal digit, '.', '-' or '+'.  It accepts
    "+-.", which neither [toInt] nor [toFloat] can parse ([std::stoi] and
    [std::stod] fail and the default is returned), and "1.2.3", of which
    [toInt] reads the leading 1 only and [toFloat] the leading 1.2 only;
    so a text accepted by [isNumeric] need not be a number. *)
Theorem isNumeric_charset (H : FloatHost) (s : text) :
  (isNumeric s = true <-> s <> [] /\ Forall Contract.numeric_char s) /\
  isNumeric (str "+-.") = true /\
  stoi (str "+-.") = Throw invalid_argument /\
  (forall d, toInt (str "+-.") d = Ret d) /\
  stod H (str "+-.") = Throw invalid_argument /\
  (forall d, toFloat H (str "+-.") d = Ret d) /\
  isNumeric (str "1.2.3") = true /\
  (forall d, toInt (str "1.2.3") d = Ret 1) /\
  float_subject (str "1.2.3") = Some (str "1.2") /\
  stod H (str "1.2.3") = strtod_value H (str "1.2") /\
  (forall d, toFloat H (str "1.2.3") d = toFloat H (str "1.2") d).
Proof.
  split; [|repeat split; reflexivity].
  unfold isNumeric. destruct s as [|c s].
  - simpl. split; [discriminate | intros [H0 _]; congruence].
  - simpl isEmpty. cbv iota. rewrite isNumeric_loop_spec.
    split; [intros H0; split; [discriminate | exact H0] | intros [_ H0]; exact H0].
Qed.

(** ** The random stream *)

Import Math.

Section RandomStream.
Context (D : Distributions).

Lemma perform_initialised rd1 rd2 c g :
  perform D rd1 c {| gen := Some g |} = perform D rd2 c {| gen := Some g |}.
Proof. destruct c; reflexivity. Qed.

Lemma perform_initialises rd c st :
  exists g, snd (perform D rd c st) = {| gen := Some g |}.
Proof.
  destruct c; simpl; unfold seed, random, randomInt, randomFloat.
  - eexists; reflexivity.
  - destruct (uniform_real_distribution D _ _ _); eexists; reflexivity.
  - destruct (uniform_int_distribution D _ _ _); eexists; reflexivity.
  - destruct (uniform_real_distribution D _ _ _); eexists; reflexivity.
Qed.

(** Once the engine exists, the entropy source is never consulted again. *)
Lemma run_initialised rd1 rd2 calls g :
  run D rd1 calls {| gen := Some g |} = run D rd2 calls {| gen := Some g |}.
Proof.
  revert g. induction calls as [|c calls IH]; intros g; simpl.
  - reflexivity.
  - rewrite (perform_initialised rd1 rd2 c g).
    destruct (perform_initialises rd2 c {| gen := Some g |}) as [g' Hg'].
    destruct (perform D rd2 c {| gen := Some g |}) as [o st'].
    simpl in Hg'. subst st'. now rewrite IH.
Qed.

Lemma run_after_seed rd1 rd2 st1 st2 s calls :
  run D rd1 (call_seed s :: calls) st1
  = run D rd2 (call_seed s :: calls) st2.
Proof.
  simpl. unfold seed. now rewrite (run_initialised rd1 rd2).
Qed.

Lemma randomInt_in_bounds rd a b st :
  uniform_int_in_bounds D -> a <= b -> a <= fst (randomInt D rd a b st) <= b.
Proof.
  intros HD Hab. unfold randomInt.
  pose proof (HD a b (getRandomEngine rd st) Hab) as H.
  destruct (uniform_int_distribution D a b (getRandomEngine rd st)). exact H.
Qed.

End RandomStream.

(** C8. Two runs that call [seed] with the same value and then make the
    same calls produce the same outputs, whatever the entropy source gave
    and whatever was drawn before the [seed]; and [randomInt n n] returns
    [n] for every distribution that keeps the bounds the C++ standard
    requires. *)
Theorem seeded_stream_reproducible (D : Distributions) :
  uniform_int_in_bounds D ->
  (forall rd1 rd2 st1 st2 s calls,
     fst (run D rd1 (call_seed s :: calls) st1)
     = fst (run D rd2 (call_seed s :: calls) st2)) /\
  (forall rd st n, fst (randomInt D rd n n st) = n).
Proof.
  intros HD. split.
  - intros. now rewrite (run_after_seed D rd1 rd2 st1 st2).
  - intros rd st n.
    pose proof (randomInt_in_bounds D rd n n st HD (Z.le_refl n)). lia.
Qed.

Lemma seeded_stream_reproducible_witness :
  fst (run scaled_draw 17
         [call_seed 42; call_randomInt 1 10; call_randomInt 1 10]
         {| gen := None |})
  = fst (run scaled_draw 99
         [call_seed 42; call_randomInt 1 10; call_randomInt 1 10]
         {| gen := Some (mt_seed 7) |}) /\
  fst (randomInt scaled_draw 17 5 5 {| gen := None |}) = 5.
Proof.
  assert (H : uniform_int_in_bounds scaled_draw).
  { intros a b g Hab. cbn [scaled_draw uniform_int_distribution].
    destruct (mt_next g) as [x g']. cbn [fst].
    pose proof (Z.mod_pos_bound x (b - a + 1)). lia. }
  destruct (seeded_stream_reproducible scaled_draw H) as [Hrun Hint].
  split; [apply Hrun | apply Hint].
Defined.

Lemma mt19937_first_outputs :
  fst (mt_next (mt_seed 5489)) = 3499211612 /\
  fst (mt_next (snd (mt_next (mt_seed 5489)))) = 581869302.
Proof. split; vm_compute; reflexivity. Qed.

Lemma seeded_draws_example :
  fst (run scaled_draw 17
         [call_seed 42; call_randomInt 1 10; call_randomInt 1 10;
          call_randomInt 5 5]
         {| gen := None |})
  = [out_void; out_int 3; out_int 8; out_int 5].
Proof. vm_compute. reflexivity. Qed.

(** ** Formatted output *)

Import Io.

Lemma emit_output chars r out :
  r = Output out -> emit chars r = Output (chars ++ out).
Proof. now intros ->. Qed.

Lemma emit_undefined chars r : r = Undefined -> emit chars r = Undefined.
Proof. now intros ->. Qed.

(** Inside the modelled fragment [vprintf] either prints or is undefined,
    according to whether every placeholder finds an argument of its kind. *)
Lemma vprintf_in_fragment n :
  forall fmt, (length fmt <= n)%nat ->
  forall args ks, placeholders fmt = Some ks ->
    if supplied ks args then exists out, vprintf fmt args = Output out
    else vprintf fmt args = Undefined.
Proof.
  induction n as [|n IH]; intros fmt Hlen args ks Hks.
  - destruct fmt; [|simpl in Hlen; lia].
    injection Hks as <-. simpl. now exists [].
  - destruct fmt as [|c fmt]; [injection Hks as <-; simpl; now exists []|].
    simpl in Hlen. cbn [placeholders vprintf] in *.
    destruct (Ascii.eqb c "%").
    + destruct fmt as [|k rest]; [discriminate|]. simpl in Hlen.
      assert (Hrest : (length rest <= n)%nat) by lia.
      destruct (Ascii.eqb k "%").
      { specialize (IH rest Hrest args ks Hks).
        destruct (supplied ks args).
        - destruct IH as [out ->]. eexists; reflexivity.
        - now rewrite IH. }
      destruct (Ascii.eqb k "d"), (Ascii.eqb k "i"), (Ascii.eqb k "c"),
        (Ascii.eqb k "s"); cbn [orb] in *; try discriminate.
      all: destruct (placeholders rest) as [ks'|] eqn:Hks'; [|discriminate].
      all: injection Hks as <-.
      all: destruct args as [|[m|bits|cs] args']; cbn [supplied kind_of kind_eqb andb];
        try reflexivity.
      all: specialize (IH rest Hrest args' ks' Hks').
      all: destruct (supplied ks' args');
        [destruct IH as [out ->]; eexists; reflexivity | now rewrite IH].
    + assert (Hfmt : (length fmt <= n)%nat) by lia.
      specialize (IH fmt Hfmt args ks Hks).
      destruct (supplied ks args).
      * destruct IH as [out ->]. eexists; reflexivity.
      * now rewrite IH.
Qed.

Lemma format_of_output fmt args out :
  vprintf (c_str fmt) args = Output out ->
  Z.of_nat (length out) < INT_MAX ->
  format fmt args = Output out.
Proof.
  intros Hv Hlen. unfold format, snprintf_result. rewrite Hv.
  destruct (Z.leb_spec (Z.of_nat (length out)) INT_MAX); [|lia].
  destruct (Z.eqb_spec (Z.of_nat (length out)) INT_MAX); [lia|].
  destruct (Z.leb_spec (Z.of_nat (length out) + 1) 0); [lia|].
  f_equal. apply firstn_all2. lia.
Qed.

(** C9 (as stated) fails: a placeholder without an argument, or with an
    argument of another kind, is not detected; the call is undefined. *)
Lemma format_mismatch_undefined :
  placeholders (c_str (str "%d")) = Some [kind_int] /\
  format (str "%d") [] = Undefined /\
  format (str "%s") [arg_int 5] = Undefined.
Proof. repeat split. Qed.

Lemma format_with_vprintf fmt args : format fmt args = format_with vprintf fmt args.
Proof. reflexivity. Qed.

Lemma format_with_output snprintf fmt args out :
  snprintf (c_str fmt) args = Output out ->
  (Z.of_nat (length out) < INT_MAX -> format_with snprintf fmt args = Output out) /\
  (Z.of_nat (length out) = INT_MAX -> format_with snprintf fmt args = Undefined) /\
  (INT_MAX < Z.of_nat (length out) -> format_with snprintf fmt args = Output []).
Proof.
  intros Hout. unfold format_with, snprintf_result. rewrite Hout.
  unfold INT_MAX. repeat split; intros Hlen.
  - destruct (Z.leb_spec (Z.of_nat (length out)) (2 ^ 31 - 1)); [|lia].
    destruct (Z.eqb_spec (Z.of_nat (length out)) (2 ^ 31 - 1)); [lia|].
    destruct (Z.leb_spec (Z.of_nat (length out) + 1) 0); [lia|].
    f_equal. apply firstn_all2. lia.
  - destruct (Z.leb_spec (Z.of_nat (length out)) (2 ^ 31 - 1)); [|lia].
    now destruct (Z.eqb_spec (Z.of_nat (length out)) (2 ^ 31 - 1)); [|lia].
  - destruct (Z.leb_spec (Z.of_nat (length out)) (2 ^ 31 - 1)); [lia|].
    reflexivity.
Qed.

(** C9 (amended). [format] makes no check of its own: on every template
    and every argument list it does what the [snprintf] of the C library
    does.  Where the behaviour of [snprintf] is undefined, that of
    [format] is.  Where [snprintf] prints a text, [format] returns that
    text when it has fewer than [INT_MAX] characters; with exactly
    [INT_MAX] characters the size computation overflows [int], and with
    more [format] returns the empty text.  For templates made of the
    conversions %d, %i, %c, %s and %% the rule of the C standard gives:
    when every placeholder finds an argument of its kind, [snprintf]
    prints (arguments beyond the last placeholder are ignored without
    notice); when an argument is missing or of another kind, the
    behaviour is undefined. *)
Theorem format_unchecked (snprintf : text -> list arg -> printed)
    (fmt : text) (args : list arg) :
  models_fragment snprintf ->
  (snprintf (c_str fmt) args = Undefined ->
     format_with snprintf fmt args = Undefined) /\
  (forall out, snprintf (c_str fmt) args = Output out ->
     (Z.of_nat (length out) < INT_MAX ->
        format_with snprintf fmt args = Output out) /\
     (Z.of_nat (length out) = INT_MAX ->
        format_with snprintf fmt args = Undefined) /\
     (INT_MAX < Z.of_nat (length out) ->
        format_with snprintf fmt args = Output [])) /\
  (forall ks, placeholders (c_str fmt) = Some ks ->
     (supplied ks args = true ->
        exists out, snprintf (c_str fmt) args = Output out) /\
     (supplied ks args = false ->
        format_with snprintf fmt args = Undefined)).
Proof.
  intros Hmodel. split; [|split].
  - intros Hu. unfold format_with. now rewrite Hu.
  - intros out Hout. now apply format_with_output.
  - intros ks Hks.
    pose proof (vprintf_in_fragment (length (c_str fmt)) (c_str fmt)
                  (Nat.le_refl _) args ks Hks) as H.
    rewrite <- (Hmodel _ args _ Hks) in H.
    split; intros Hs; rewrite Hs in H.
    + exact H.
    + unfold format_with. now rewrite H.
Qed.

Lemma format_unchecked_witness :
  models_fragment vprintf /\
  format_with vprintf (str "n=%d %s") [arg_int 7; arg_cstr (str "ok")]
    = Output (str "n=7 ok") /\
  format_with vprintf (str "n=%d %s") [arg_cstr (str "ok")] = Undefined /\
  format_with vprintf (str "%d") [] = Undefined.
Proof.
  assert (Hmodel : models_fragment vprintf).
  { intros fmt args ks _. reflexivity. }
  split; [exact Hmodel|]. split; [|split].
  - destruct (format_unchecked vprintf (str "n=%d %s")
                [arg_int 7; arg_cstr (str "ok")] Hmodel) as [_ [Hout _]].
    destruct (Hout (str "n=7 ok") eq_refl) as [Hshort _].
    apply Hshort. unfold INT_MAX. simpl. lia.
  - destruct (format_unchecked vprintf (str "n=%d %s") [arg_cstr (str "ok")]
                Hmodel) as [_ [_ Hks]].
    destruct (Hks [kind_int; kind_cstr] eq_refl) as [_ Hmiss].
    apply Hmiss. reflexivity.
  - destruct (format_unchecked vprintf (str "%d") [] Hmodel) as [Hu _].
    apply Hu. reflexivity.
Defined.

Lemma format_examples :
  format (str "x=%d, s=%s%%") [arg_int (-12); arg_cstr (str "ab")]
    = Output (str "x=-12, s=ab%") /\
  format (str "%d") [arg_int 5; arg_int 6] = Output (str "5").
Proof. split; reflexivity. Qed.

(** ** Creating directories *)

Import Fs.

Lemma create_directory_result p t b t' :
  create_directory p t = Ret (b, t') -> t' !! p = Some directory.
Proof.
  unfold create_directory. destruct (t !! p) as [[]|] eqn:Hp.
  - discriminate.
  - intros H; inversion H; now subst.
  - destruct p as [|c parent]; [discriminate|].
    destruct (is_directory t parent); [|discriminate].
    intros H; inversion H; subst. apply lookup_insert_eq.
Qed.

Lemma create_directories_existing p t :
  is_directory t p = true -> create_directories p t = Ret (false, t).
Proof.
  unfold is_directory. intros H.
  destruct p; simpl; destruct (t !! _) as [[]|]; congruence.
Qed.

Lemma create_directories_result p t b t' :
  create_directories p t = Ret (b, t') -> is_directory t' p = true.
Proof.
  unfold is_directory. destruct p as [|c parent]; simpl.
  - destruct (t !! []) as [[]|] eqn:Hp; try discriminate.
    intros H; inversion H; subst. now rewrite Hp.
  - destruct (t !! (c :: parent)) as [[]|] eqn:Hp; try discriminate.
    + intros H; inversion H; subst. now rewrite Hp.
    + destruct (create_directories parent t) as [r| |]; simpl; try discriminate.
      intros H. now rewrite (create_directory_result _ _ _ _ H).
Qed.

(** C4 (as stated) fails: on an existing directory [mkdirp] returns
    [false]. *)
Lemma mkdirp_existing_returns_false :
  is_directory root_and_tmp ["tmp"%string] = true /\
  mkdirp ["tmp"%string] root_and_tmp = Ret (false, root_and_tmp).
Proof.
  assert (H : is_directory root_and_tmp ["tmp"%string] = true).
  { unfold is_directory, root_and_tmp. now rewrite lookup_insert_eq. }
  split; [exact H | exact (create_directories_existing _ _ H)].
Qed.

(** C4 (amended). On a path that names an existing directory [mkdirp]
    raises nothing, leaves the file tree as it is and returns [false]: its
    result tells whether a directory was newly created.  After any [mkdirp]
    that returns, the path is a directory and a second [mkdirp] changes
    nothing. *)
Theorem mkdirp_existing_directory (p : path) (t : gmap path node) :
  (is_directory t p = true -> mkdirp p t = Ret (false, t)) /\
  (forall b t', mkdirp p t = Ret (b, t') ->
     is_directory t' p = true /\ mkdirp p t' = Ret (false, t')).
Proof.
  unfold mkdirp. split.
  - apply create_directories_existing.
  - intros b t' H. apply create_directories_result in H.
    split; [exact H | now apply create_directories_existing].
Qed.

Lemma mkdirp_existing_directory_witness :
  mkdirp ["tmp"%string] root_and_tmp = Ret (false, root_and_tmp).
Proof.
  apply (mkdirp_existing_directory ["tmp"%string] root_and_tmp).
  unfold is_directory, root_and_tmp. now rewrite lookup_insert_eq.
Defined.

Lemma mkdirp_creates_missing_levels :
  mkdirp ["b"; "a"; "tmp"]%string root_and_tmp
  = Ret (true,
       <[ ["b"; "a"; "tmp"]%string := directory ]>
         (<[ ["a"; "tmp"]%string := directory ]> root_and_tmp)).
Proof. vm_compute. reflexivity. Qed.

(** * Further properties of the runtime *)

(** ** Occurrences of a text in a text *)

Lemma occurrence_at s t j :
  (j <= length s)%nat -> is_prefix t (drop j s) = true ->
  exists a b, s = a ++ t ++ b /\ length a = j.
Proof.
  intros Hj Hp. apply is_prefix_true in Hp as [r Hr].
  exists (take j s), r. split.
  - now rewrite <- Hr, take_drop.
  - rewrite length_take. lia.
Qed.

Lemma occurrence_prefix a t b : is_prefix t (drop (length a) (a ++ t ++ b)) = true.
Proof. rewrite drop_app_length. apply is_prefix_true. now exists b. Qed.

Lemma find_scan_first d s pos e :
  find_scan d s pos = Some e ->
  exists k, e = (pos + k)%nat /\ (k <= length s)%nat /\
            is_prefix d (drop k s) = true /\
            forall j, (j < k)%nat -> is_prefix d (drop j s) = false.
Proof.
  revert pos. induction s as [|c s IH]; intros pos; simpl.
  - destruct (is_prefix d []) eqn:Hp; [|discriminate].
    intros [= <-]. exists O. repeat split; [lia | lia | exact Hp | lia].
  - destruct (is_prefix d (c :: s)) eqn:Hp.
    + intros [= <-]. exists O. repeat split; [lia | lia | exact Hp | lia].
    + intros H. apply IH in H as (k & -> & Hk & Hd & Hmin).
      exists (S k). repeat split; [lia | lia | exact Hd |].
      intros [|j] Hj; [exact Hp | apply Hmin; lia].
Qed.

Lemma find_scan_complete d a rest pos :
  is_prefix d rest = true -> is_Some (find_scan d (a ++ rest) pos).
Proof.
  intros Hp. revert pos. induction a as [|c a IH]; intros pos.
  - destruct rest; simpl in *; rewrite Hp; now eexists.
  - simpl. destruct (is_prefix d (c :: a ++ rest)); [now eexists | apply IH].
Qed.

Lemma rfind_scan_last d s pos e :
  rfind_scan d s pos = Some e ->
  exists k, e = (pos + k)%nat /\ (k <= length s)%nat /\
            is_prefix d (drop k s) = true /\
            forall j, (k < j <= length s)%nat -> is_prefix d (drop j s) = false.
Proof.
  revert pos e. induction s as [|c s IH]; intros pos e; simpl.
  - destruct (is_prefix d []) eqn:Hp; [|discriminate].
    intros [= <-]. exists O. repeat split; [lia | lia | exact Hp | lia].
  - destruct (rfind_scan d s (S pos)) as [p|] eqn:Hr.
    + intros [= <-]. apply IH in Hr as (k & -> & Hk & Hd & Hmax).
      exists (S k). repeat split; [lia | lia | exact Hd |].
      intros [|j] Hj; [lia | apply Hmax; lia].
    + destruct (is_prefix d (c :: s)) eqn:Hp; [|discriminate].
      intros [= <-]. exists O. repeat split; [lia | lia | exact Hp |].
      intros [|j] Hj; [lia|]. simpl.
      destruct (is_prefix d (drop j s)) eqn:Hj'; [|reflexivity].
      apply find_scan_none_iff_rfind in Hr.
      destruct (find_scan_complete d (take j s) (drop j s) (S pos) Hj') as [x Hx].
      rewrite take_drop in Hx. congruence.
Qed.

Lemma contains_occurrence (s t : text) :
  contains s t = true <-> exists a b, s = a ++ t ++ b.
Proof.
  unfold contains. split.
  - destruct (find s t 0) as [e|] eqn:Hf; [|discriminate]. intros _.
    apply find_bounds in Hf as [[_ He] Hp].
    destruct (occurrence_at s t e He Hp) as (a & b & H & _). now exists a, b.
  - intros (a & b & ->).
    change (find (a ++ t ++ b) t 0) with (find_scan t (a ++ t ++ b) 0).
    destruct (find_scan_complete t a (t ++ b) 0%nat) as [x ->]; [|reflexivity].
    apply is_prefix_true. now exists b.
Qed.

(** X1. [contains s t] holds exactly when [t] occurs in [s]. *)
Theorem contains_iff_occurs (s t : text) :
  contains s t = true <-> exists a b, s = a ++ t ++ b.
Proof. exact (contains_occurrence s t). Qed.

Lemma indexOf_first (s t : text) :
  contains s t = true ->
  exists a b, s = a ++ t ++ b /\ indexOf s t 0 = Z.of_nat (length a) /\
    forall a' b', s = a' ++ t ++ b' -> (length a <= length a')%nat.
Proof.
  unfold contains, indexOf.
  change (find s t 0) with (find_scan t s 0).
  destruct (find_scan t s 0) as [e|] eqn:Hf; [|discriminate]. intros _.
  apply find_scan_first in Hf as (k & -> & Hk & Hp & Hmin). simpl.
  destruct (occurrence_at s t k Hk Hp) as (a & b & Hs & Hlen).
  exists a, b. split; [exact Hs|]. split; [now rewrite Hlen|].
  intros a' b' Hs'. rewrite Hlen.
  destruct (Nat.le_gt_cases k (length a')) as [|Hlt]; [assumption|].
  specialize (Hmin _ Hlt). rewrite Hs', occurrence_prefix in Hmin. discriminate.
Qed.

(** X2. When [t] occurs in [s], [indexOf s t] is the position of its
    first occurrence. *)
Theorem indexOf_first_occurrence (s t : text) :
  contains s t = true ->
  exists a b, s = a ++ t ++ b /\ indexOf s t 0 = Z.of_nat (length a) /\
    forall a' b', s = a' ++ t ++ b' -> (length a <= length a')%nat.
Proof. exact (indexOf_first s t). Qed.

Lemma indexOf_first_occurrence_witness :
  exists a b, str "abcabc" = a ++ str "bc" ++ b /\
    indexOf (str "abcabc") (str "bc") 0 = Z.of_nat (length a) /\
    forall a' b', str "abcabc" = a' ++ str "bc" ++ b' ->
      (length a <= length a')%nat.
Proof. apply (indexOf_first_occurrence (str "abcabc") (str "bc")). reflexivity. Defined.

(** X3. When [t] occurs in [s], [lastIndexOf s t] is the position of its
    last occurrence. *)
Theorem lastIndexOf_last_occurrence (s t : text) :
  contains s t = true ->
  exists a b, s = a ++ t ++ b /\ lastIndexOf s t = Z.of_nat (length a) /\
    forall a' b', s = a' ++ t ++ b' -> (length a' <= length a)%nat.
Proof.
  intros Hc. unfold lastIndexOf.
  destruct (rfind s t) as [e|] eqn:Hr.
  2:{ apply contains_false_rfind in Hr. congruence. }
  unfold rfind in Hr.
  apply rfind_scan_last in Hr as (k & -> & Hk & Hp & Hmax). simpl.
  destruct (occurrence_at s t k Hk Hp) as (a & b & Hs & Hlen).
  exists a, b. split; [exact Hs|]. split; [now rewrite Hlen|].
  intros a' b' Hs'. rewrite Hlen.
  destruct (Nat.le_gt_cases (length a') k) as [|Hlt]; [assumption|].
  assert (Hle : (k < length a' <= length s)%nat).
  { split; [exact Hlt|]. rewrite Hs', length_app. lia. }
  specialize (Hmax _ Hle). rewrite Hs', occurrence_prefix in Hmax. discriminate.
Qed.

Lemma lastIndexOf_last_occurrence_witness :
  exists a b, str "abcabc" = a ++ str "bc" ++ b /\
    lastIndexOf (str "abcabc") (str "bc") = Z.of_nat (length a) /\
    forall a' b', str "abcabc" = a' ++ str "bc" ++ b' ->
      (length a' <= length a)%nat.
Proof.
  apply (lastIndexOf_last_occurrence (str "abcabc") (str "bc")). reflexivity.
Defined.

Lemma prefix_suffix_tests (s p : text) :
  (startsWith s p = true <-> exists r, s = p ++ r) /\
  (endsWith s p = true <-> exists r, s = r ++ p).
Proof.
  split.
  - unfold startsWith. destruct (length s <? length p)%nat eqn:Hlt.
    + apply Nat.ltb_lt in Hlt. split; [discriminate|].
      intros [r ->]. rewrite length_app in Hlt. lia.
    + apply is_prefix_true.
  - unfold endsWith. destruct (length s <? length p)%nat eqn:Hlt.
    + apply Nat.ltb_lt in Hlt. split; [discriminate|].
      intros [r ->]. rewrite length_app in Hlt. lia.
    + apply Nat.ltb_ge in Hlt. rewrite is_prefix_true. split.
      * intros [r Hr]. exists (take (length s - length p) s).
        pose proof (f_equal length Hr) as Hl.
        rewrite length_drop, length_app in Hl.
        assert (r = []) as -> by (destruct r; [reflexivity | simpl in Hl; lia]).
        rewrite app_nil_r in Hr.
        transitivity (take (length s - length p) s
                      ++ drop (length s - length p) s);
          [symmetry; apply take_drop | now rewrite Hr].
      * intros [r ->]. exists []. rewrite length_app.
        replace (length r + length p - length p)%nat with (length r) by lia.
        now rewrite drop_app_length, app_nil_r.
Qed.

(** X4. [startsWith s p] holds exactly when [s] begins with [p], and
    [endsWith s x] exactly when [s] ends with [x]. *)
Theorem startsWith_endsWith_spec (s p : text) :
  (startsWith s p = true <-> exists r, s = p ++ r) /\
  (endsWith s p = true <-> exists r, s = r ++ p).
Proof. exact (prefix_suffix_tests s p). Qed.

(** ** More on splitting and replacing *)

Lemma find_first s d start e :
  find s d start = Some e ->
  (start <= e <= length s)%nat /\ is_prefix d (drop e s) = true /\
  forall j, (start <= j < e)%nat -> is_prefix d (drop j s) = false.
Proof.
  intros H. destruct (find_bounds _ _ _ _ H) as [Hb Hp].
  split; [exact Hb|]. split; [exact Hp|].
  unfold find in H. destruct (start <=? length s)%nat; [|discriminate].
  apply find_scan_first in H as (k & -> & _ & _ & Hmin).
  intros j Hj. replace j with (start + (j - start))%nat by lia.
  rewrite <- drop_drop. apply Hmin. lia.
Qed.

Lemma find_none s d start :
  find s d start = None -> (start <= length s)%nat ->
  forall j, (start <= j <= length s)%nat -> is_prefix d (drop j s) = false.
Proof.
  unfold find. intros H Hs j Hj.
  destruct (start <=? length s)%nat eqn:Hle; [|apply Nat.leb_gt in Hle; lia].
  destruct (is_prefix d (drop j s)) eqn:Hp; [|reflexivity].
  destruct (find_scan_complete d (take (j - start) (drop start s))
              (drop j s) start Hp) as [x Hx].
  replace (drop j s) with (drop (j - start) (drop start s)) in Hx
    by (rewrite drop_drop; f_equal; lia).
  rewrite take_drop in Hx. congruence.
Qed.

(** A piece of [s] in which no occurrence of [d] fits does not contain
    [d]. *)
Lemma piece_without_delimiter s d lo hi :
  (lo <= hi <= length s)%nat ->
  (forall j, (lo <= j)%nat -> (j + length d <= hi)%nat ->
     is_prefix d (drop j s) = false) ->
  contains (take (hi - lo) (drop lo s)) d = false.
Proof.
  intros Hb Hfree.
  destruct (contains (take (hi - lo) (drop lo s)) d) eqn:Hc; [|reflexivity].
  apply contains_occurrence in Hc as (a & b & Hab).
  pose proof (f_equal length Hab) as Hl.
  rewrite length_take, length_drop, !length_app in Hl.
  assert (Hj : is_prefix d (drop (lo + length a) s) = true).
  { rewrite <- drop_drop, <- (take_drop (hi - lo) (drop lo s)), Hab.
    rewrite <- !app_assoc, drop_app_length. apply is_prefix_true. eauto. }
  rewrite Hfree in Hj; [discriminate | lia | lia].
Qed.

Lemma split_loop_pieces s d :
  d <> [] ->
  forall fuel acc start,
    (start <= length s)%nat -> (length s - start < fuel)%nat ->
    exists tail,
      split_loop fuel s d acc start (find s d start) = Ret (acc ++ tail) /\
      Forall (fun part => contains part d = false) tail.
Proof.
  intros Hd. induction fuel as [|fuel IH]; intros acc start Hs Hf; [lia|].
  assert (0 < length d)%nat by (destruct d; simpl; [congruence | lia]).
  destruct (find s d start) as [e|] eqn:Hfind.
  - apply find_first in Hfind as ([Hse Hel] & Hp & Hmin).
    pose proof (prefix_at_split d s e Hel Hp) as [_ Hlen].
    simpl. unfold substr.
    destruct (length s <? start)%nat eqn:Hlt;
      [apply Nat.ltb_lt in Hlt; lia|]. simpl.
    destruct (IH (acc ++ [take (e - start) (drop start s)])
                 (e + length d)%nat) as (tail & Hrun & Hclean); [lia | lia |].
    exists (take (e - start) (drop start s) :: tail). split.
    + rewrite <- app_assoc in Hrun. exact Hrun.
    + constructor; [|exact Hclean].
      apply piece_without_delimiter; [lia|]. intros j Hj1 Hj2. apply Hmin. lia.
  - exists [drop start s]. split.
    + destruct fuel; simpl; unfold substr_from;
        (destruct (length s <? start)%nat eqn:Hlt;
         [apply Nat.ltb_lt in Hlt; lia | reflexivity]).
    + constructor; [|constructor].
      replace (drop start s) with (take (length s - start) (drop start s))
        by (apply take_ge; rewrite length_drop; lia).
      apply piece_without_delimiter; [lia|]. intros j Hj1 Hj2.
      apply (find_none s d start Hfind Hs). lia.
Qed.

(** X5. No component that [split] returns contains the (non-empty)
    delimiter. *)
Theorem split_components_without_delimiter (s d : text) (parts : list text) :
  d <> [] -> split s d = Ret parts ->
  Forall (fun part => contains part d = false) parts.
Proof.
  intros Hd. unfold split, split_budget.
  destruct d as [|c d]; [congruence|]. cbn [isEmpty].
  destruct (split_loop_pieces s (c :: d) Hd (S (length s)) [] 0%nat)
    as (tail & Hrun & Hclean); [lia | lia |].
  rewrite Hrun. intros [= <-]. exact Hclean.
Qed.

Lemma split_components_without_delimiter_witness :
  Forall (fun part => contains part (str "--") = false)
         [str "a"; str "b"; str "-"].
Proof.
  apply (split_components_without_delimiter (str "a--b---") (str "--"));
    [discriminate | reflexivity].
Defined.

Lemma join_singletons s : join (map (fun c => [c]) s) [] = s.
Proof.
  induction s as [|c s IH]; [reflexivity|].
  destruct s as [|c' s]; [reflexivity|].
  change (map (fun c => [c]) (c :: c' :: s))
    with ([c] :: map (fun c : ascii => [c]) (c' :: s)).
  rewrite join_cons by discriminate. now rewrite IH.
Qed.

(** X6. With the empty delimiter [split] yields one component per
    character, each of length one, and [join] with the empty delimiter
    gives the text back. *)
Theorem split_into_characters (s : text) :
  exists parts,
    split s [] = Ret parts /\
    length parts = length s /\
    Forall (fun part => length part = 1%nat) parts /\
    join parts [] = s.
Proof.
  exists (map (fun c => [c]) s). split; [reflexivity|]. split; [|split].
  - apply length_map.
  - induction s; simpl; constructor; auto.
  - apply join_singletons.
Qed.

Lemma find_scan_shift d x pos :
  find_scan d x pos = (fun k => (pos + k)%nat) <$> find_scan d x 0.
Proof.
  revert pos. induction x as [|c x IH]; intros pos; simpl.
  - destruct (is_prefix d []); simpl; [f_equal; lia | reflexivity].
  - destruct (is_prefix d (c :: x)); simpl; [f_equal; lia|].
    rewrite (IH (S pos)), (IH 1%nat).
    destruct (find_scan d x 0); simpl; [f_equal; lia | reflexivity].
Qed.

(** Searching behind a prefix sees the rest only. *)
Lemma find_behind_prefix prefix rest d :
  find (prefix ++ rest) d (length prefix)
  = (fun k => (length prefix + k)%nat) <$> find rest d 0.
Proof.
  unfold find. rewrite length_app.
  replace (length prefix <=? length prefix + length rest)%nat with true
    by (symmetry; apply Nat.leb_le; lia).
  rewrite drop_app_length. cbn [Nat.leb drop]. apply find_scan_shift.
Qed.

Lemma find_from_start s d start :
  (start <= length s)%nat ->
  find s d start = (fun k => (start + k)%nat) <$> find (drop start s) d 0.
Proof.
  intros Hs. unfold find.
  replace (start <=? length s)%nat with true by (symmetry; now apply Nat.leb_le).
  cbn [Nat.leb drop]. apply find_scan_shift.
Qed.

Lemma replace_loop_follows_split s d to :
  d <> [] ->
  forall fuel acc prefix start,
    (start <= length s)%nat -> (length s - start < fuel)%nat ->
    exists tail,
      split_loop fuel s d acc start (find s d start) = Ret (acc ++ tail) /\
      tail <> [] /\
      replace_loop fuel (prefix ++ drop start s) d to (length prefix)
      = Ret (prefix ++ join tail to).
Proof.
  intros Hd. induction fuel as [|fuel IH]; intros acc prefix start Hs Hf; [lia|].
  assert (0 < length d)%nat by (destruct d; simpl; [congruence | lia]).
  cbn [replace_loop]. rewrite find_behind_prefix.
  rewrite (find_from_start s d start Hs).
  destruct (find (drop start s) d 0) as [k|] eqn:Hfind; cbn [fmap option_fmap option_map].
  - apply find_bounds in Hfind as [[_ Hk] Hp].
    rewrite length_drop in Hk. rewrite drop_drop in Hp.
    pose proof (prefix_at_split d s (start + k) ltac:(lia) Hp) as [Hsplit Hlen].
    cbn [split_loop]. unfold substr, string_replace.
    destruct (length s <? start)%nat eqn:Hlt;
      [apply Nat.ltb_lt in Hlt; lia|].
    rewrite length_app, length_drop.
    destruct (length prefix + (length s - start) <? length prefix + k)%nat eqn:Hlt2;
      [apply Nat.ltb_lt in Hlt2; lia|].
    cbn [mbind outcome_bind].
    replace (start + k - start)%nat with k by lia.
    destruct (IH (acc ++ [take k (drop start s)])
                 (prefix ++ take k (drop start s) ++ to)
                 (start + k + length d)%nat) as (tail & Hrun & Hne & Hrep);
      [lia | lia |].
    exists (take k (drop start s) :: tail). split; [|split].
    + rewrite <- app_assoc in Hrun. exact Hrun.
    + discriminate.
    + rewrite join_cons by exact Hne.
      rewrite !length_app, length_take, length_drop in Hrep.
      replace (length prefix + (k `min` (length s - start) + length to))%nat
        with (length prefix + k + length to)%nat in Hrep by lia.
      rewrite take_app_add, <- Nat.add_assoc, drop_app_add, drop_drop.
      replace (start + (k + length d))%nat with (start + k + length d)%nat by lia.
      rewrite <- !app_assoc in Hrep. rewrite <- !app_assoc. exact Hrep.
  - exists [drop start s]. split; [|split].
    + destruct fuel; simpl; unfold substr_from;
        (destruct (length s <? start)%nat eqn:Hlt;
         [apply Nat.ltb_lt in Hlt; lia | reflexivity]).
    + discriminate.
    + reflexivity.
Qed.

(** X7. For a non-empty search text, [replace s from to] is the
    components of [split s from] joined by [to]. *)
Theorem replace_is_join_of_split (s from to : text) :
  from <> [] ->
  exists parts, split s from = Ret parts /\ replace s from to = Ret (join parts to).
Proof.
  intros Hd. unfold split, split_budget, replace.
  destruct from as [|c d]; [congruence|]. cbn [isEmpty].
  destruct (replace_loop_follows_split s (c :: d) to Hd (S (length s)) [] [] 0%nat)
    as (tail & Hrun & _ & Hrep); [lia | lia |].
  exists tail. split; [exact Hrun | exact Hrep].
Qed.

Lemma replace_is_join_of_split_witness :
  exists parts,
    split (str "a-b-c") (str "-") = Ret parts /\
    replace (str "a-b-c") (str "-") (str "--") = Ret (join parts (str "--")).
Proof. apply (replace_is_join_of_split (str "a-b-c") (str "-")). discriminate. Defined.

(** X8. When [from] occurs in [s], [replaceFirst] replaces its first
    occurrence and nothing else; when it does not occur, the text comes
    back unchanged. *)
Theorem replaceFirst_first_occurrence (s from to : text) :
  (contains s from = true ->
   exists a b, s = a ++ from ++ b /\
     (forall a' b', s = a' ++ from ++ b' -> (length a <= length a')%nat) /\
     replaceFirst s from to = Ret (a ++ to ++ b)) /\
  (contains s from = false -> replaceFirst s from to = Ret s).
Proof.
  split.
  - intros Hc.
    destruct (indexOf_first s from Hc) as (a & b & Hs & Hidx & Hmin).
    exists a, b. split; [exact Hs|]. split; [exact Hmin|].
    unfold replaceFirst. unfold indexOf in Hidx.
    destruct (find s from 0) as [e|] eqn:Hf.
    + assert (e = length a) as -> by lia.
      unfold string_replace. clear Hmin Hc Hf Hidx. subst s.
      rewrite !length_app.
      destruct (length a + (length from + length b) <? length a)%nat eqn:Hlt;
        [apply Nat.ltb_lt in Hlt; lia|].
      rewrite take_app_length, <- drop_drop, drop_app_length, drop_app_length.
      reflexivity.
    + apply contains_false_find in Hf. congruence.
  - intros Hc. apply contains_false_find in Hc. unfold replaceFirst.
    now rewrite Hc.
Qed.

Lemma replaceFirst_first_occurrence_witness :
  (exists a b, str "a-b-c" = a ++ str "-" ++ b /\
     (forall a' b', str "a-b-c" = a' ++ str "-" ++ b' ->
        (length a <= length a')%nat) /\
     replaceFirst (str "a-b-c") (str "-") (str "+") = Ret (a ++ str "+" ++ b)) /\
  replaceFirst (str "abc") (str "-") (str "+") = Ret (str "abc").
Proof.
  split.
  - apply (replaceFirst_first_occurrence (str "a-b-c") (str "-") (str "+")).
    reflexivity.
  - apply (replaceFirst_first_occurrence (str "abc") (str "-") (str "+")).
    reflexivity.
Defined.

(** ** Trimming *)

Lemma find_first_not_of_scan_spec s set pos :
  match find_first_not_of_scan s set pos with
  | Some e => exists l c r, s = l ++ c :: r /\ e = (pos + length l)%nat /\
                Forall (fun x => in_set set x = true) l /\ in_set set c = false
  | None => Forall (fun x => in_set set x = true) s
  end.
Proof.
  revert pos. induction s as [|c s IH]; intros pos; simpl; [constructor|].
  destruct (in_set set c) eqn:Hc.
  - specialize (IH (S pos)). destruct (find_first_not_of_scan s set (S pos)).
    + destruct IH as (l & c' & r & -> & -> & Hl & Hc').
      exists (c :: l), c', r. repeat split; [simpl; lia | now constructor | exact Hc'].
    + now constructor.
  - exists [], c, s. repeat split; [simpl; lia | constructor | exact Hc].
Qed.

Lemma find_last_not_of_scan_spec s set pos :
  match find_last_not_of_scan s set pos with
  | Some e => exists l c r, s = l ++ c :: r /\ e = (pos + length l)%nat /\
                in_set set c = false /\ Forall (fun x => in_set set x = true) r
  | None => Forall (fun x => in_set set x = true) s
  end.
Proof.
  revert pos. induction s as [|c s IH]; intros pos; simpl; [constructor|].
  specialize (IH (S pos)). destruct (find_last_not_of_scan s set (S pos)).
  - destruct IH as (l & c' & r & -> & -> & Hc' & Hr).
    exists (c :: l), c', r. repeat split; [simpl; lia | exact Hc' | exact Hr].
  - destruct (in_set set c) eqn:Hc.
    + now constructor.
    + exists [], c, s. repeat split; [simpl; lia | exact Hc | exact IH].
Qed.

Lemma trimLeft_spec s :
  exists l t, trimLeft s = Ret t /\ s = l ++ t /\
    Forall (fun x => in_set WHITESPACE x = true) l /\
    (forall c t', t = c :: t' -> in_set WHITESPACE c = false).
Proof.
  unfold trimLeft, find_first_not_of.
  pose proof (find_first_not_of_scan_spec s WHITESPACE 0) as H.
  destruct (find_first_not_of_scan s WHITESPACE 0) as [e|].
  - destruct H as (l & c & r & -> & -> & Hl & Hc).
    exists l, (c :: r). unfold substr_from. rewrite length_app. simpl.
    destruct (length l + S (length r) <? length l)%nat eqn:Hlt;
      [apply Nat.ltb_lt in Hlt; lia|].
    rewrite drop_app_length. repeat split; [exact Hl|].
    intros c0 t' [= <- _]. exact Hc.
  - exists s, []. rewrite app_nil_r. repeat split; [exact H | discriminate].
Qed.

Lemma trimRight_spec s :
  exists t r, trimRight s = Ret t /\ s = t ++ r /\
    Forall (fun x => in_set WHITESPACE x = true) r /\
    (forall t' c, t = t' ++ [c] -> in_set WHITESPACE c = false).
Proof.
  unfold trimRight, find_last_not_of.
  pose proof (find_last_not_of_scan_spec s WHITESPACE 0) as H.
  destruct (find_last_not_of_scan s WHITESPACE 0) as [e|].
  - destruct H as (l & c & r & -> & -> & Hc & Hr).
    exists (l ++ [c]), r.
    assert (Hcut : l ++ c :: r = (l ++ [c]) ++ r) by now rewrite <- app_assoc.
    split; [|split; [exact Hcut | split; [exact Hr|]]].
    { unfold substr. destruct (Nat.ltb_spec (length (l ++ c :: r)) 0); [lia|].
      rewrite drop_0, Hcut. f_equal. apply take_app_length'.
      rewrite length_app. simpl. lia. }
    intros t' c0 Heq. apply app_inj_tail in Heq as [_ <-]. exact Hc.
  - exists [], s. repeat split; [exact H|]. intros [|? ?] ? ?; discriminate.
Qed.

Lemma trim_decomposition (s : text) :
  exists l t r,
    trim s = Ret t /\ s = l ++ t ++ r /\
    Forall (fun x => in_set WHITESPACE x = true) l /\
    Forall (fun x => in_set WHITESPACE x = true) r /\
    (forall c t', t = c :: t' -> in_set WHITESPACE c = false) /\
    (forall t' c, t = t' ++ [c] -> in_set WHITESPACE c = false).
Proof.
  destruct (trimLeft_spec s) as (l & t1 & Hleft & -> & Hl & Hfirst).
  destruct (trimRight_spec t1) as (t & r & Hright & -> & Hr & Hlast).
  exists l, t, r. unfold trim. rewrite Hleft. cbn [mbind outcome_bind].
  repeat split; try assumption.
  intros c t' ->. simpl in Hfirst. now apply (Hfirst c (t' ++ r)).
Qed.

(** X9. [trim] removes a run of white space at each end and nothing
    else: the input is white space, the result, white space, and the
    result neither starts nor ends with a white-space character. *)
Theorem trim_strips_both_ends (s : text) :
  exists l t r,
    trim s = Ret t /\ s = l ++ t ++ r /\
    Forall (fun x => in_set WHITESPACE x = true) l /\
    Forall (fun x => in_set WHITESPACE x = true) r /\
    (forall c t', t = c :: t' -> in_set WHITESPACE c = false) /\
    (forall t' c, t = t' ++ [c] -> in_set WHITESPACE c = false).
Proof. exact (trim_decomposition s). Qed.

Lemma trimLeft_fixed t :
  (forall c t', t = c :: t' -> in_set WHITESPACE c = false) -> trimLeft t = Ret t.
Proof.
  intros H. destruct t as [|c t']; [reflexivity|].
  unfold trimLeft, find_first_not_of. cbn [find_first_not_of_scan].
  now rewrite (H c t' eq_refl).
Qed.

Lemma trimRight_fixed t :
  (forall t' c, t = t' ++ [c] -> in_set WHITESPACE c = false) -> trimRight t = Ret t.
Proof.
  intros H. destruct (trimRight_spec t) as (u & r & Hrun & Heq & Hr & _).
  rewrite Hrun. f_equal.
  destruct r as [|x r] using rev_ind; [now rewrite app_nil_r in Heq|].
  clear IHr. rewrite app_assoc in Heq. specialize (H _ _ Heq).
  apply Forall_app in Hr as [_ Hx]. inversion Hx; congruence.
Qed.

(** X10. [trim] is idempotent. *)
Theorem trim_idempotent (s t : text) : trim s = Ret t -> trim t = Ret t.
Proof.
  intros Hs.
  destruct (trim_decomposition s) as (l & t0 & r & Hrun & _ & _ & _ & Hfirst & Hlast).
  rewrite Hrun in Hs. injection Hs as ->.
  unfold trim. rewrite (trimLeft_fixed t Hfirst). cbn [mbind outcome_bind].
  now apply trimRight_fixed.
Qed.

Lemma trim_idempotent_witness : trim (str "a b") = Ret (str "a b").
Proof. apply (trim_idempotent (str "  a b  ")). reflexivity. Defined.

(** ** Case conversion *)

Lemma toupper_laws c :
  toupper (toupper c) = toupper c /\ tolower (tolower c) = tolower c /\
  tolower (toupper c) = tolower c /\ toupper (tolower c) = toupper c.
Proof. destruct c as [[] [] [] [] [] [] [] []]; repeat split. Qed.

(** X11. [toUpper] and [toLower] keep the length, are idempotent, and
    each one undoes the other up to case: lowering an upper-cased text
    gives the lowered text, and conversely.  [capitalize] keeps the
    length, is idempotent and leaves everything behind the first
    character as it is. *)
Theorem case_conversion_laws (s : text) :
  length (toUpper s) = length s /\ length (toLower s) = length s /\
  toUpper (toUpper s) = toUpper s /\ toLower (toLower s) = toLower s /\
  toLower (toUpper s) = toLower s /\ toUpper (toLower s) = toUpper s /\
  length (capitalize s) = length s /\
  capitalize (capitalize s) = capitalize s /\
  drop 1 (capitalize s) = drop 1 s.
Proof.
  unfold toUpper, toLower. rewrite !length_map, !map_map.
  repeat split; try (apply map_ext; intros c; apply toupper_laws);
    destruct s as [|c s]; try reflexivity.
  cbn [capitalize]. f_equal. apply toupper_laws.
Qed.

Lemma toUpper_example :
  toUpper (str "Hello, World 42!") = str "HELLO, WORLD 42!" /\
  toLower (str "Hello, World 42!") = str "hello, world 42!" /\
  capitalize (str "hello") = str "Hello".
Proof. repeat split. Qed.

(** ** Repeating and padding *)

Lemma repeat_loop_spec n s acc :
  repeat_loop n s acc = acc ++ concat (replicate n s).
Proof.
  revert acc. induction n as [|n IH]; intros acc; simpl.
  - now rewrite app_nil_r.
  - rewrite IH. now rewrite <- app_assoc.
Qed.

Lemma repeat_nonneg s n : 0 <= n -> repeat s n = concat (replicate (Z.to_nat n) s).
Proof.
  intros Hn. unfold repeat. destruct (Z.leb_spec n 0).
  - now replace n with 0 by lia.
  - apply repeat_loop_spec.
Qed.

(** X12. [repeat s count] is empty for [count <= 0]; otherwise it has
    [count] times the length of [s], and repeating [a + b] times is
    repeating [a] times followed by repeating [b] times. *)
Theorem repeat_laws (s : text) (a b : Z) :
  (a <= 0 -> repeat s a = []) /\
  (0 <= a -> Z.of_nat (length (repeat s a)) = a * Z.of_nat (length s)) /\
  (0 <= a -> 0 <= b -> repeat s (a + b) = repeat s a ++ repeat s b).
Proof.
  split; [|split].
  - intros Ha. unfold repeat. now destruct (Z.leb_spec a 0); [|lia].
  - intros Ha. rewrite repeat_nonneg by exact Ha.
    rewrite <- (Z2Nat.id a) at 2 by exact Ha.
    induction (Z.to_nat a) as [|n IH]; simpl; [lia|].
    rewrite length_app. lia.
  - intros Ha Hb. rewrite !repeat_nonneg by lia.
    rewrite Z2Nat.inj_add by lia.
    induction (Z.to_nat a) as [|n IH]; simpl; [reflexivity|].
    now rewrite IH, app_assoc.
Qed.

Lemma repeat_laws_witness :
  repeat (str "ab") (-2) = [] /\
  Z.of_nat (length (repeat (str "ab") 3)) = 3 * Z.of_nat (length (str "ab")) /\
  repeat (str "ab") (1 + 2) = repeat (str "ab") 1 ++ repeat (str "ab") 2.
Proof.
  destruct (repeat_laws (str "ab") (-2) 0) as (H1 & _ & _).
  destruct (repeat_laws (str "ab") 3 0) as (_ & H2 & _).
  destruct (repeat_laws (str "ab") 1 2) as (_ & _ & H3).
  split; [apply H1; lia | split; [apply H2; lia | apply H3; lia]].
Defined.

(** X13. [padLeft] and [padRight] give a text of length
    [max width (length s)] that ends, respectively starts, with [s], in
    which every added character is the fill character; they return [s]
    itself when it is already [width] long or longer. *)
Theorem pad_laws (s : text) (width : nat) (fill : ascii) :
  padLeft s width fill = replicate (width - length s) fill ++ s /\
  padRight s width fill = s ++ replicate (width - length s) fill /\
  length (padLeft s width fill) = Nat.max width (length s) /\
  length (padRight s width fill) = Nat.max width (length s) /\
  endsWith (padLeft s width fill) s = true /\
  startsWith (padRight s width fill) s = true /\
  ((width <= length s)%nat ->
     padLeft s width fill = s /\ padRight s width fill = s).
Proof.
  assert (HL : padLeft s width fill = replicate (width - length s) fill ++ s).
  { unfold padLeft. destruct (Nat.leb_spec width (length s)); [|reflexivity].
    now replace (width - length s)%nat with 0%nat by lia. }
  assert (HR : padRight s width fill = s ++ replicate (width - length s) fill).
  { unfold padRight. destruct (Nat.leb_spec width (length s)); [|reflexivity].
    replace (width - length s)%nat with 0%nat by lia. now rewrite app_nil_r. }
  split; [exact HL|]. split; [exact HR|]. rewrite HL, HR.
  rewrite !length_app, length_replicate.
  split; [lia|]. split; [lia|]. split; [|split].
  - apply (proj2 (prefix_suffix_tests _ _)). eauto.
  - apply (proj1 (prefix_suffix_tests _ _)). eauto.
  - intros Hle. replace (width - length s)%nat with 0%nat by lia.
    now rewrite app_nil_r.
Qed.

Lemma pad_laws_witness :
  padLeft (str "abcd") 3 "0" = str "abcd" /\ padRight (str "abcd") 3 "0" = str "abcd".
Proof. apply (pad_laws (str "abcd") 3 "0"). simpl. lia. Defined.

(** ** Reversal, characters and substrings *)

(** X14. [reverse] is an involution that keeps the length and swaps the
    order of a concatenation, and the character at position [i] of the
    reversed text is the character at position [length s - 1 - i]. *)
Theorem reverse_laws (s t : text) (i : nat) :
  reverse (reverse s) = s /\
  length (reverse s) = length s /\
  reverse (s ++ t) = reverse t ++ reverse s /\
  ((i < length s)%nat -> charAt (reverse s) i = charAt s (length s - 1 - i)).
Proof.
  unfold reverse. split; [apply rev_involutive|].
  split; [apply length_rev|]. split; [apply rev_app_distr|].
  intros Hi. unfold charAt. rewrite length_rev.
  destruct (Nat.leb_spec (length s) i); [lia|].
  destruct (Nat.leb_spec (length s) (length s - 1 - i)); [lia|].
  rewrite rev_nth by lia. f_equal. lia.
Qed.

Lemma reverse_laws_witness :
  charAt (reverse (str "abc")) 0 = charAt (str "abc") (3 - 1 - 0).
Proof. apply (reverse_laws (str "abc") [] 0). simpl. lia. Defined.

Lemma substring_cases (s : text) (start end_ : Z) :
  Z.of_nat (length s) < 2 ^ 64 -> 0 <= start -> 0 <= end_ < 2 ^ 64 ->
  (Z.of_nat (length s) <= start -> substring s start end_ = Ret []) /\
  (start < Z.of_nat (length s) -> start <= end_ ->
     substring s start end_
     = Ret (take (Z.to_nat (end_ - start)) (drop (Z.to_nat start) s))) /\
  (start < Z.of_nat (length s) -> end_ < start ->
     substring s start end_ = Ret (drop (Z.to_nat start) s)) /\
  (start < Z.of_nat (length s) ->
     substring s start (start + 1) = Ret [charAt s (Z.to_nat start)]) /\
  (Z.of_nat (length s) <= start -> charAt s (Z.to_nat start) = Ascii.zero).
Proof.
  intros Hlen Hs He.
  assert (Hsub : forall e, 0 <= e < 2 ^ 64 -> start < Z.of_nat (length s) ->
            start <= e ->
            substring s start e
            = Ret (take (Z.to_nat (e - start)) (drop (Z.to_nat start) s))).
  { intros e Hrange Hin Hle. unfold substring, substr_count, substr.
    destruct (Z.leb_spec (Z.of_nat (length s)) start); [lia|].
    destruct (Nat.ltb_spec (length s) (Z.to_nat start)); [lia|].
    rewrite to_size_t_small by lia. f_equal.
    destruct (Z.le_gt_cases (e - start) (Z.of_nat (length s) - Z.of_nat (Z.to_nat start))).
    - now rewrite Z.min_l by lia.
    - rewrite Z.min_r by lia.
      rewrite !take_ge; [reflexivity | rewrite length_drop; lia..]. }
  split; [|split; [|split; [|split]]].
  - intros H. unfold substring. now destruct (Z.leb_spec (Z.of_nat (length s)) start); [|lia].
  - intros Hin Hle. now apply Hsub.
  - intros Hin Hlt. unfold substring, substr_count, substr.
    destruct (Z.leb_spec (Z.of_nat (length s)) start); [lia|].
    destruct (Nat.ltb_spec (length s) (Z.to_nat start)); [lia|].
    f_equal. apply take_ge. rewrite length_drop.
    unfold to_size_t, SIZE_BITS.
    rewrite <- (Z.mod_add (end_ - start) 1 (2 ^ 64)) by lia.
    rewrite Z.mod_small by lia. lia.
  - intros Hin. rewrite Hsub by lia. f_equal.
    replace (Z.to_nat (start + 1 - start)) with 1%nat by lia.
    unfold charAt. destruct (Nat.leb_spec (length s) (Z.to_nat start)); [lia|].
    remember (Z.to_nat start) as k eqn:Hk. clear - H.
    revert k H. induction s as [|c s IH]; intros k Hk; simpl in *; [lia|].
    destruct k; [reflexivity|]. apply IH. lia.
  - intros H. unfold charAt.
    now destruct (Nat.leb_spec (length s) (Z.to_nat start)); [|lia].
Qed.

(** X15. [substring s start end]: empty when [start] is at or behind the
    end of the text; the characters from [start] up to [end] when
    [start <= end]; and, because [end - start] is computed in [size_t],
    everything from [start] to the end of the text when [end < start].
    The one-character substring at an index inside the text is the
    character [charAt] returns, and [charAt] returns NUL outside. *)
Theorem substring_bounds (s : text) (start end_ : Z) :
  Z.of_nat (length s) < 2 ^ 64 -> 0 <= start -> 0 <= end_ < 2 ^ 64 ->
  (Z.of_nat (length s) <= start -> substring s start end_ = Ret []) /\
  (start < Z.of_nat (length s) -> start <= end_ ->
     substring s start end_
     = Ret (take (Z.to_nat (end_ - start)) (drop (Z.to_nat start) s))) /\
  (start < Z.of_nat (length s) -> end_ < start ->
     substring s start end_ = Ret (drop (Z.to_nat start) s)) /\
  (start < Z.of_nat (length s) ->
     substring s start (start + 1) = Ret [charAt s (Z.to_nat start)]) /\
  (Z.of_nat (length s) <= start -> charAt s (Z.to_nat start) = Ascii.zero).
Proof. exact (substring_cases s start end_). Qed.

Lemma substring_bounds_witness :
  substring (str "hello") 3 1 = Ret (drop (Z.to_nat 3) (str "hello")) /\
  substring (str "hello") 1 3
  = Ret (take (Z.to_nat (3 - 1)) (drop (Z.to_nat 1) (str "hello"))).
Proof.
  destruct (substring_bounds (str "hello") 3 1) as (_ & _ & H3 & _);
    [simpl; lia | lia | lia |].
  destruct (substring_bounds (str "hello") 1 3) as (_ & H2 & _);
    [simpl; lia | lia | lia |].
  split; [apply H3; simpl; lia | apply H2; simpl; lia].
Defined.

(** ** Printing and parsing integers *)

Lemma digit_run_of_uint_acc d acc :
  digit_run (str (NilEmpty.string_of_uint d)) (Z.pos acc)
  = Z.pos (Pos.of_uint_acc d acc).
Proof.
  revert acc. induction d; intros acc; simpl; [reflexivity|..];
    (etransitivity; [|apply IHd]); f_equal; unfold digit_value; simpl; lia.
Qed.

Lemma digit_run_of_uint d :
  digit_run (str (NilEmpty.string_of_uint d)) 0 = Z.of_N (Pos.of_uint d).
Proof.
  induction d; simpl; [reflexivity | exact IHd | ..];
    apply (digit_run_of_uint_acc d).
Qed.

Lemma digits_start_with_digit d :
  d <> Decimal.Nil ->
  exists c rest, str (NilEmpty.string_of_uint d) = c :: rest /\
    isdigit c = true /\ isspace c = false /\
    Ascii.eqb c "-" = false /\ Ascii.eqb c "+" = false.
Proof.
  destruct d; [congruence|..]; intros _; simpl; eexists _, _;
    (split; [reflexivity | repeat split]).
Qed.

Lemma to_uint_nonnil p : Pos.to_uint p <> Decimal.Nil.
Proof.
  intros H. pose proof (DecimalPos.Unsigned.of_to p) as Hp.
  rewrite H in Hp. discriminate.
Qed.

Lemma leading_integer_digits t :
  (exists c rest, t = c :: rest /\ isdigit c = true /\ isspace c = false /\
     Ascii.eqb c "-" = false /\ Ascii.eqb c "+" = false) ->
  leading_integer t = Some (digit_run t 0) /\
  leading_integer ("-"%char :: t) = Some (- digit_run t 0).
Proof.
  intros (c & rest & -> & Hd & Hsp & Hm & Hpl). unfold leading_integer. split.
  - cbn [skip_space]. rewrite Hsp. cbn [read_sign]. rewrite Hm, Hpl.
    cbn [starts_with_digit]. now rewrite Hd.
  - cbn [skip_space]. change (isspace "-") with false. cbv iota.
    cbn [read_sign]. change (Ascii.eqb "-" "-") with true. cbv iota.
    cbn [starts_with_digit]. now rewrite Hd.
Qed.

Lemma nilzero_string_of_uint u :
  u <> Decimal.Nil -> NilZero.string_of_uint u = NilEmpty.string_of_uint u.
Proof. destruct u; [congruence | reflexivity..]. Qed.

Lemma leading_integer_to_string n : leading_integer (to_string n) = Some n.
Proof.
  unfold to_string. destruct n as [|p|p]; [reflexivity|..]; simpl Z.to_int;
    unfold NilZero.string_of_int;
    rewrite (nilzero_string_of_uint _ (to_uint_nonnil p));
    pose proof (digit_run_of_uint (Pos.to_uint p)) as Hrun;
    rewrite DecimalPos.Unsigned.of_to in Hrun;
    destruct (leading_integer_digits _
                (digits_start_with_digit _ (to_uint_nonnil p))) as [Hpos Hneg].
  - rewrite Hpos, Hrun. reflexivity.
  - change (str (String "-" ?x)) with ("-"%char :: str x).
    rewrite Hneg, Hrun. reflexivity.
Qed.

Lemma toInt_to_string (n d : Z) :
  INT_MIN <= n <= INT_MAX -> toInt (fromInt n) d = Ret n.
Proof.
  intros Hn. unfold fromInt. rewrite toInt_value, leading_integer_to_string.
  unfold in_int_range.
  destruct (Z.leb_spec INT_MIN n); [|lia].
  destruct (Z.leb_spec n INT_MAX); [reflexivity | lia].
Qed.

(** X16. [toInt] reads back what [fromInt] prints: for every [int] [n]
    and every default, [toInt (fromInt n)] is [n]. *)
Theorem toInt_fromInt (n d : Z) :
  INT_MIN <= n <= INT_MAX -> toInt (fromInt n) d = Ret n.
Proof. exact (toInt_to_string n d). Qed.

Lemma toInt_fromInt_witness : toInt (fromInt (-2147483648)) 0 = Ret (-2147483648).
Proof. apply toInt_fromInt. unfold INT_MIN, INT_MAX. lia. Defined.

(** ** Integer functions of [math.hpp] *)

Lemma int_result_in_range z :
  INT_MIN <= z <= INT_MAX -> MathInt.int_result z = MathInt.Val z.
Proof.
  intros H. unfold MathInt.int_result, in_int_range.
  destruct (Z.leb_spec INT_MIN z); [|lia].
  now destruct (Z.leb_spec z INT_MAX); [|lia].
Qed.

Lemma int_result_overflow z :
  z < INT_MIN \/ INT_MAX < z -> MathInt.int_result z = MathInt.SignedOverflow.
Proof.
  intros H. unfold MathInt.int_result, in_int_range.
  destruct (Z.leb_spec INT_MIN z); [|reflexivity].
  now destruct (Z.leb_spec z INT_MAX); [lia|].
Qed.

Lemma gcd_loop_spec fuel :
  forall a b, 0 <= a -> 0 <= b -> (Z.to_nat b < fuel)%nat ->
    MathInt.gcd_loop fuel a b = MathInt.Val (Z.gcd a b).
Proof.
  induction fuel as [|fuel IH]; intros a b Ha Hb Hf; [lia|].
  cbn [MathInt.gcd_loop]. destruct (Z.eqb_spec b 0) as [->|Hb0].
  - now rewrite Z.gcd_0_r, Z.abs_eq.
  - rewrite Z.rem_mod_nonneg by lia.
    pose proof (Z.mod_pos_bound a b ltac:(lia)).
    rewrite IH by lia. f_equal.
    rewrite Z.gcd_comm, Z.gcd_mod by lia. apply Z.gcd_comm.
Qed.

Lemma gcd_euclid (a b : Z) :
  INT_MIN <= a <= INT_MAX -> INT_MIN <= b <= INT_MAX ->
  (INT_MIN < a -> INT_MIN < b -> MathInt.gcd a b = MathInt.Val (Z.gcd a b)) /\
  (a = INT_MIN \/ b = INT_MIN -> MathInt.gcd a b = MathInt.SignedOverflow).
Proof.
  intros Ha Hb. unfold MathInt.gcd, MathInt.abs. unfold INT_MIN, INT_MAX in *.
  split.
  - intros Ha' Hb'.
    rewrite !int_result_in_range by (unfold INT_MIN, INT_MAX; lia).
    cbn [MathInt.arith_bind]. rewrite gcd_loop_spec by lia.
    now rewrite Z.gcd_abs_l, Z.gcd_abs_r.
  - intros [-> | ->].
    + reflexivity.
    + destruct (Z.eq_dec a (- 2 ^ 31)) as [->|]; [reflexivity|].
      rewrite (int_result_in_range (Z.abs a)) by (unfold INT_MIN, INT_MAX; lia).
      reflexivity.
Qed.

(** X17. [gcd] computes the greatest common divisor: for all [int]
    arguments other than [INT_MIN] the loop ends within its budget with
    the mathematical gcd (so [gcd a 0 = |a|] and [gcd 0 0 = 0]); for
    [INT_MIN], [std::abs] overflows. *)
Theorem gcd_is_gcd (a b : Z) :
  INT_MIN <= a <= INT_MAX -> INT_MIN <= b <= INT_MAX ->
  (INT_MIN < a -> INT_MIN < b -> MathInt.gcd a b = MathInt.Val (Z.gcd a b)) /\
  (a = INT_MIN \/ b = INT_MIN -> MathInt.gcd a b = MathInt.SignedOverflow).
Proof. exact (gcd_euclid a b). Qed.

Lemma gcd_is_gcd_witness :
  MathInt.gcd 12 18 = MathInt.Val (Z.gcd 12 18) /\
  MathInt.gcd INT_MIN 2 = MathInt.SignedOverflow.
Proof.
  destruct (gcd_is_gcd 12 18) as [H1 _];
    [unfold INT_MIN, INT_MAX; lia | unfold INT_MIN, INT_MAX; lia |].
  destruct (gcd_is_gcd INT_MIN 2) as [_ H2];
    [unfold INT_MIN, INT_MAX; lia | unfold INT_MIN, INT_MAX; lia |].
  split; [apply H1; unfold INT_MIN; lia | apply H2; now left].
Defined.

Lemma lcm_product a b :
  a <> 0 -> b <> 0 -> Z.abs (Z.quot a (Z.gcd a b) * b) = Z.lcm a b.
Proof.
  intros Ha Hb. unfold Z.lcm.
  assert (Hg0 : Z.gcd a b <> 0).
  { intros H0. apply Z.gcd_eq_0_l in H0. congruence. }
  destruct (Z.gcd_divide_l a b) as [a' Ha'].
  destruct (Z.gcd_divide_r a b) as [b' Hb'].
  remember (Z.gcd a b) as g eqn:Heq. clear Heq Ha Hb. subst a b.
  rewrite Z.quot_mul, Z.div_mul by exact Hg0. f_equal. ring.
Qed.

(** X18. [lcm] computes the least common multiple whenever that fits
    [int] (and is 0 when an argument is 0); when it does not fit, the
    multiplication or [std::abs] overflows. *)
Theorem lcm_is_lcm (a b : Z) :
  INT_MIN < a <= INT_MAX -> INT_MIN < b <= INT_MAX ->
  (Z.lcm a b <= INT_MAX -> MathInt.lcm a b = MathInt.Val (Z.lcm a b)) /\
  (INT_MAX < Z.lcm a b -> MathInt.lcm a b = MathInt.SignedOverflow).
Proof.
  intros Ha Hb. unfold MathInt.lcm.
  destruct (Z.eqb_spec a 0) as [->|Ha0]; cbn [orb].
  { rewrite Z.lcm_0_l. unfold INT_MAX. split; [reflexivity | intros; exfalso; lia]. }
  destruct (Z.eqb_spec b 0) as [->|Hb0].
  { rewrite Z.lcm_0_r. unfold INT_MAX. split; [reflexivity | intros; exfalso; lia]. }
  destruct (gcd_euclid a b ltac:(lia) ltac:(lia)) as [Hg _].
  rewrite Hg by lia. clear Hg.
  cbn [MathInt.arith_bind].
  pose proof (lcm_product a b Ha0 Hb0) as Hl.
  pose proof (Z.lcm_nonneg a b) as Hnn.
  set (prod := Z.quot a (Z.gcd a b) * b) in *.
  unfold MathInt.abs. unfold INT_MIN, INT_MAX in *. split.
  - intros Hfit.
    rewrite (int_result_in_range prod) by (unfold INT_MIN, INT_MAX; lia).
    cbn [MathInt.arith_bind]. rewrite Hl.
    apply int_result_in_range. unfold INT_MIN, INT_MAX. lia.
  - intros Hbig.
    destruct (Z_le_gt_dec (- 2 ^ 31) prod) as [Hlo|Hlo];
      [destruct (Z_le_gt_dec prod (2 ^ 31 - 1)) as [Hhi|Hhi]|].
    + rewrite (int_result_in_range prod) by (unfold INT_MIN, INT_MAX; lia).
      cbn [MathInt.arith_bind]. rewrite Hl.
      apply int_result_overflow. unfold INT_MIN, INT_MAX. lia.
    + rewrite (int_result_overflow prod) by (unfold INT_MIN, INT_MAX; lia).
      reflexivity.
    + rewrite (int_result_overflow prod) by (unfold INT_MIN, INT_MAX; lia).
      reflexivity.
Qed.

Lemma lcm_is_lcm_witness :
  MathInt.lcm 4 6 = MathInt.Val (Z.lcm 4 6) /\
  MathInt.lcm 65536 65537 = MathInt.SignedOverflow.
Proof.
  destruct (lcm_is_lcm 4 6) as [H1 _];
    [unfold INT_MIN, INT_MAX; lia | unfold INT_MIN, INT_MAX; lia |].
  destruct (lcm_is_lcm 65536 65537) as [_ H2];
    [unfold INT_MIN, INT_MAX; lia | unfold INT_MIN, INT_MAX; lia |].
  split; [apply H1 | apply H2]; vm_compute; congruence.
Defined.

Lemma small_cases (P : Z -> Prop) (bound : nat) :
  (forall k, (k <= bound)%nat -> P (Z.of_nat k)) ->
  forall n, 0 <= n <= Z.of_nat bound -> P n.
Proof.
  intros H n Hn. rewrite <- (Z2Nat.id n) by lia. apply H. lia.
Qed.

(** X19. [factorial] follows the recurrence [0! = 1],
    [n! = n * (n-1)!] up to [n = 20], returns 0 for a negative argument,
    and overflows [long long] for every [n > 20]. *)
Theorem factorial_range (n : Z) :
  (n < 0 -> MathInt.factorial n = MathInt.Val 0) /\
  MathInt.factorial 0 = MathInt.Val 1 /\
  (1 <= n <= 20 ->
     exists v, MathInt.factorial (n - 1) = MathInt.Val v /\
               MathInt.factorial n = MathInt.Val (n * v)) /\
  (20 < n -> MathInt.factorial n = MathInt.SignedOverflow).
Proof.
  split; [|split; [reflexivity | split]].
  - intros Hn. unfold MathInt.factorial. now destruct (Z.ltb_spec n 0); [|lia].
  - intros Hn. revert n Hn.
    assert (H : forall n, 0 <= n <= Z.of_nat 19 ->
              exists v, MathInt.factorial n = MathInt.Val v /\
                MathInt.factorial (n + 1) = MathInt.Val ((n + 1) * v)).
    { apply small_cases. intros k Hk.
      do 20 (destruct k as [|k]; [eexists; split; vm_compute; reflexivity|]).
      lia. }
    intros n Hn. destruct (H (n - 1) ltac:(lia)) as (v & H1 & H2).
    exists v. replace (n - 1 + 1) with n in H2 by lia. now split.
  - intros Hn. unfold MathInt.factorial.
    destruct (Z.ltb_spec n 0); [lia|]. destruct (Z.leb_spec n 1); [lia|].
    replace (Z.to_nat (n - 1)) with (20 + Z.to_nat (n - 21))%nat by lia.
    vm_compute. reflexivity.
Qed.

Lemma factorial_range_witness :
  MathInt.factorial (-3) = MathInt.Val 0 /\
  (exists v, MathInt.factorial (5 - 1) = MathInt.Val v /\
             MathInt.factorial 5 = MathInt.Val (5 * v)) /\
  MathInt.factorial 21 = MathInt.SignedOverflow.
Proof.
  destruct (factorial_range (-3)) as (H1 & _).
  destruct (factorial_range 5) as (_ & _ & H2 & _).
  destruct (factorial_range 21) as (_ & _ & _ & H3).
  split; [apply H1; lia | split; [apply H2; lia | apply H3; lia]].
Defined.

(** X20. [fibonacci] is the Fibonacci sequence up to index 92:
    [fibonacci 0 = 0], [fibonacci 1 = 1] and
    [fibonacci (n + 2) = fibonacci n + fibonacci (n + 1)] for
    [0 <= n <= 90]; it returns 0 for a negative index and overflows
    [long long] for every index above 92. *)
Theorem fibonacci_range (n : Z) :
  (n <= 0 -> MathInt.fibonacci n = MathInt.Val 0) /\
  MathInt.fibonacci 1 = MathInt.Val 1 /\
  (0 <= n <= 90 ->
     exists x y, MathInt.fibonacci n = MathInt.Val x /\
                 MathInt.fibonacci (n + 1) = MathInt.Val y /\
                 MathInt.fibonacci (n + 2) = MathInt.Val (x + y)) /\
  (92 < n -> MathInt.fibonacci n = MathInt.SignedOverflow).
Proof.
  split; [|split; [reflexivity | split]].
  - intros Hn. unfold MathInt.fibonacci. now destruct (Z.leb_spec n 0); [|lia].
  - revert n. apply (small_cases _ 90). intros k Hk.
    do 91 (destruct k as [|k];
           [eexists _, _; split; [|split]; vm_compute; reflexivity|]).
    lia.
  - intros Hn. unfold MathInt.fibonacci.
    destruct (Z.leb_spec n 0); [lia|]. destruct (Z.eqb_spec n 1); [lia|].
    replace (Z.to_nat (n - 1)) with (92 + Z.to_nat (n - 93))%nat by lia.
    vm_compute. reflexivity.
Qed.

Lemma fibonacci_range_witness :
  MathInt.fibonacci (-1) = MathInt.Val 0 /\
  (exists x y, MathInt.fibonacci 90 = MathInt.Val x /\
               MathInt.fibonacci (90 + 1) = MathInt.Val y /\
               MathInt.fibonacci (90 + 2) = MathInt.Val (x + y)) /\
  MathInt.fibonacci 93 = MathInt.SignedOverflow.
Proof.
  destruct (fibonacci_range (-1)) as (H1 & _).
  destruct (fibonacci_range 90) as (_ & _ & H2 & _).
  destruct (fibonacci_range 93) as (_ & _ & _ & H3).
  split; [apply H1; lia | split; [apply H2; lia | apply H3; lia]].
Defined.

(** A number above 1 without a divisor between 2 and its square root is
    prime. *)
Lemma prime_by_trial_division n :
  2 <= n ->
  (forall d, 2 <= d -> d * d <= n -> ~ (d | n)) ->
  Znumtheory.prime n.
Proof.
  intros Hn Hfree. apply Znumtheory.prime_alt. split; [lia|].
  intros m Hm [q Hq].
  assert (Hq1 : 2 <= q) by nia.
  destruct (Z_le_gt_dec (m * m) n) as [Hsmall|Hbig].
  - apply (Hfree m); [lia | exact Hsmall | now exists q].
  - apply (Hfree q); [exact Hq1 | nia | exists m; lia].
Qed.

Lemma not_prime_divisor n d : 1 < d < n -> (d | n) -> ~ Znumtheory.prime n.
Proof.
  intros Hd Hdiv Hp. apply Znumtheory.prime_alt in Hp as [_ Hp].
  now apply (Hp d).
Qed.

Lemma isPrime_loop_spec fuel :
  forall n i,
    3 <= n <= INT_MAX -> Z.odd n = true ->
    3 <= i <= 46341 -> Z.odd i = true ->
    46343 <= 2 * Z.of_nat fuel + i ->
    (forall d, 2 <= d < i -> ~ (d | n)) ->
    (i = 3 \/ (i - 2) * (i - 2) <= n) ->
    match MathInt.isPrime_loop fuel n i with
    | MathInt.Val true => Znumtheory.prime n /\ n < 46339 * 46339
    | MathInt.Val false => ~ Znumtheory.prime n
    | MathInt.SignedOverflow => Znumtheory.prime n /\ 46339 * 46339 <= n
    | MathInt.OutOfBudget => False
    end.
Proof.
  induction fuel as [|fuel IH]; intros n i Hn Hodd Hi Hiodd Hfuel Hfree Hprev;
    [lia|].
  unfold INT_MAX in Hn. cbn [MathInt.isPrime_loop].
  destruct (Z.eq_dec i 46341) as [->|Hi'].
  - rewrite int_result_overflow by (unfold INT_MIN, INT_MAX; lia).
    cbn [MathInt.arith_bind]. split; [|lia].
    apply prime_by_trial_division; [lia|]. intros d Hd Hsq. apply Hfree. nia.
  - assert (Hi2 : i <= 46339).
    { destruct (Z.eq_dec i 46340) as [->|]; [discriminate | lia]. }
    rewrite int_result_in_range by (unfold INT_MIN, INT_MAX; nia).
    cbn [MathInt.arith_bind].
    destruct (Z.leb_spec (i * i) n) as [Hsq|Hsq].
    + destruct (Z.eqb_spec (Z.rem n i) 0) as [Hrem|Hrem].
      * apply (not_prime_divisor n i); [nia|].
        apply Z.rem_divide; [lia | exact Hrem].
      * apply IH; [unfold INT_MAX; lia | exact Hodd | lia | | lia | | ].
        { rewrite Z.odd_add, Hiodd. reflexivity. }
        { intros d Hd [q Hq].
          destruct (Z.eq_dec d i) as [->|].
          - apply Hrem. apply Z.rem_divide; [lia | now exists q].
          - destruct (Z.eq_dec d (i + 1)) as [->|].
            + assert (Heven : Z.odd (i + 1) = false)
                by (rewrite Z.odd_add, Hiodd; reflexivity).
              rewrite Hq, Z.odd_mul, Heven, andb_false_r in Hodd. discriminate.
            + apply (Hfree d); [lia | now exists q]. }
        { right. replace (i + 2 - 2) with i by lia. exact Hsq. }
    + split; [|nia].
      apply prime_by_trial_division; [lia|]. intros d Hd Hdsq. apply Hfree. nia.
Qed.

(** X21. [isPrime] decides primality by trial division: for every [int]
    below 46339^2 = 2147302921 it returns, within its loop budget,
    [true] exactly for the primes.  From 2147302921 on it still returns
    [false] for every composite number, but for a prime the test
    [i * i <= n] overflows [int] at [i = 46341]. *)
Theorem isPrime_decides_primality (n : Z) :
  INT_MIN <= n <= INT_MAX ->
  (n < 2147302921 ->
     (Znumtheory.prime n -> MathInt.isPrime n = MathInt.Val true) /\
     (~ Znumtheory.prime n -> MathInt.isPrime n = MathInt.Val false)) /\
  (2147302921 <= n ->
     (Znumtheory.prime n -> MathInt.isPrime n = MathInt.SignedOverflow) /\
     (~ Znumtheory.prime n -> MathInt.isPrime n = MathInt.Val false)).
Proof.
  intros Hn.
  assert (Hcases :
    match MathInt.isPrime n with
    | MathInt.Val true => Znumtheory.prime n /\ n < 46339 * 46339
    | MathInt.Val false => ~ Znumtheory.prime n
    | MathInt.SignedOverflow => Znumtheory.prime n /\ 46339 * 46339 <= n
    | MathInt.OutOfBudget => False
    end).
  { unfold MathInt.isPrime.
    destruct (Z.ltb_spec n 2) as [Hlt|Hge].
    { intros Hp. destruct Hp as [Hp _]. lia. }
    destruct (Z.eqb_spec n 2) as [->|Hne]; [split; [apply prime_by_trial_division; [lia | intros; nia] | lia]|].
    destruct (Z.eqb_spec (Z.rem n 2) 0) as [Hrem|Hrem].
    { apply (not_prime_divisor n 2); [lia|].
      apply Z.rem_divide; [lia | exact Hrem]. }
    assert (Hodd : Z.odd n = true).
    { rewrite Z.rem_mod_nonneg in Hrem by lia.
      rewrite Zodd_mod. destruct (Z.eqb_spec (n mod 2) 1); [reflexivity|].
      pose proof (Z.mod_pos_bound n 2 ltac:(lia)). lia. }
    apply isPrime_loop_spec;
      [lia | exact Hodd | lia | reflexivity | unfold MathInt.isPrime_budget; lia
      | | now left].
    intros d Hd [q Hq]. assert (d = 2) as -> by lia.
    rewrite Hq, Z.odd_mul, andb_false_r in Hodd. discriminate. }
  destruct (MathInt.isPrime n) as [[|]| |]; try contradiction.
  - destruct Hcases as [Hp Hsmall].
    split; intros Hb; (split; [intros _ | intros Hnp]);
      try reflexivity; try contradiction; lia.
  - split; intros Hb; (split; [intros Hp | intros Hnp]);
      try reflexivity; try contradiction.
  - destruct Hcases as [Hp Hbig].
    split; intros Hb; (split; [intros _ | intros Hnp]);
      try reflexivity; try contradiction; lia.
Qed.

Lemma isPrime_decides_primality_witness :
  MathInt.isPrime 17 = MathInt.Val true /\ MathInt.isPrime 18 = MathInt.Val false.
Proof.
  destruct (isPrime_decides_primality 17) as [[H17 _] _];
    [unfold INT_MIN, INT_MAX; lia | lia |].
  destruct (isPrime_decides_primality 18) as [[_ H18] _];
    [unfold INT_MIN, INT_MAX; lia | lia |].
  split.
  - apply H17. apply prime_by_trial_division; [lia|].
    intros d Hd Hsq [q Hq].
    assert (Hcase : d = 2 \/ d = 3 \/ d = 4) by nia.
    destruct Hcase as [Hc|[Hc|Hc]]; subst d; lia.
  - apply H18. apply (not_prime_divisor 18 2); [lia | now exists 9].
Defined.

Lemma isPrime_examples :
  MathInt.isPrime 1 = MathInt.Val false /\
  MathInt.isPrime 2 = MathInt.Val true /\
  MathInt.isPrime 2147302921 = MathInt.Val false /\
  MathInt.isPrime 2147483647 = MathInt.SignedOverflow.
Proof. repeat split; vm_compute; reflexivity. Qed.

(** ** Replaying the random stream *)

Section RandomReplay.
Context (D : Distributions).

Lemma run_app rd calls1 calls2 st :
  run D rd (calls1 ++ calls2) st
  = (fst (run D rd calls1 st) ++ fst (run D rd calls2 (snd (run D rd calls1 st))),
     snd (run D rd calls2 (snd (run D rd calls1 st)))).
Proof.
  revert st. induction calls1 as [|c calls1 IH]; intros st; simpl.
  - now destruct (run D rd calls2 st).
  - destruct (perform D rd c st) as [o st']. rewrite IH.
    destruct (run D rd calls1 st') as [os st'']. reflexivity.
Qed.

End RandomReplay.

(** X22. Seeding again with the same value replays the stream: a program
    that seeds, draws, seeds again with the same value and makes the same
    draws sees the same outputs twice.  The seed is an [unsigned int], so
    two seed values that agree modulo [2^32] give the same stream. *)
Theorem reseeding_replays (D : Distributions) (rd : Z) (st : process)
    (s k : Z) (calls : list (call (double D))) :
  fst (run D rd ((call_seed s :: calls) ++ (call_seed s :: calls)) st)
  = fst (run D rd (call_seed s :: calls) st)
    ++ fst (run D rd (call_seed s :: calls) st) /\
  run D rd (call_seed (s + k * 2 ^ 32) :: calls) st
  = run D rd (call_seed s :: calls) st.
Proof.
  split.
  - rewrite run_app. cbn [fst].
    now rewrite (run_after_seed D rd rd
                   (snd (run D rd (call_seed s :: calls) st)) st).
  - cbn [run perform]. unfold seed, word. now rewrite Z.mod_add by lia.
Qed.

Lemma reseeding_replays_example :
  fst (run scaled_draw 17
         [call_seed 42; call_randomInt 1 10; call_randomInt 1 10;
          call_seed 42; call_randomInt 1 10; call_randomInt 1 10]
         {| gen := None |})
  = [out_void; out_int 3; out_int 8; out_void; out_int 3; out_int 8].
Proof. vm_compute. reflexivity. Qed.

(** ** More on formatted output *)

Lemma c_str_no_percent fmt :
  Forall (fun c => c <> "%"%char) fmt ->
  Forall (fun c => c <> "%"%char) (c_str fmt) /\
  (length (c_str fmt) <= length fmt)%nat.
Proof.
  induction 1 as [|c fmt Hc _ [IH1 IH2]]; simpl; [split; [constructor | lia]|].
  destruct (Ascii.eqb c Ascii.zero); [split; [constructor | simpl; lia]|].
  split; [now constructor | simpl; lia].
Qed.

Lemma vprintf_plain fmt args :
  Forall (fun c => c <> "%"%char) fmt -> vprintf fmt args = Output fmt.
Proof.
  induction 1 as [|c fmt Hc _ IH]; [reflexivity|].
  cbn [vprintf]. destruct (Ascii.eqb_spec c "%"); [congruence|].
  now rewrite IH.
Qed.

(** X23. A template without a percent sign is returned as it is, up to
    its first NUL character, whatever arguments are passed with it. *)
Theorem format_plain_template (fmt : text) (args : list arg) :
  Forall (fun c => c <> "%"%char) fmt ->
  Z.of_nat (length fmt) < INT_MAX ->
  format fmt args = Output (c_str fmt).
Proof.
  intros Hplain Hlen. destruct (c_str_no_percent fmt Hplain) as [Hc Hl].
  apply format_of_output; [now apply vprintf_plain | lia].
Qed.

Lemma format_plain_template_witness :
  format (str "value: ") [arg_int 3] = Output (c_str (str "value: ")).
Proof.
  apply format_plain_template; [repeat constructor; discriminate|].
  unfold INT_MAX. simpl. lia.
Defined.

(** ** More on creating directories *)

Lemma is_directory_true (t : gmap path node) (q : path) :
  is_directory t q = true <-> t !! q = Some directory.
Proof.
  unfold is_directory. destruct (t !! q) as [[]|]; split; congruence.
Qed.

Lemma suffix_of_cons (q : path) (c : string) (parent : path) :
  q `suffix_of` c :: parent -> q = c :: parent \/ q `suffix_of` parent.
Proof.
  intros [k Hk]. destruct k as [|x k]; simpl in Hk.
  - now left.
  - injection Hk as _ ->. right. now exists k.
Qed.

Lemma ancestors_are_directories (t : gmap path node) (p : path) :
  tree_well_formed t -> t !! p = Some directory ->
  forall q, q `suffix_of` p -> t !! q = Some directory.
Proof.
  intros [Hroot Hpar]. induction p as [|c parent IH]; intros Hp q Hq.
  - apply suffix_nil_inv in Hq as ->. exact Hp.
  - apply suffix_of_cons in Hq as [->|Hq]; [exact Hp|].
    apply IH; [|exact Hq]. exact (Hpar _ _ _ Hp).
Qed.

Lemma not_suffix_of_parent (c : string) (parent : path) :
  ~ (c :: parent) `suffix_of` parent.
Proof. intros H. apply suffix_length in H. simpl in H. lia. Qed.

(** X24. On a well-formed file tree in which no level of the path is a
    regular file, [mkdirp] returns; afterwards every level of the path is a
    directory, the tree is still well formed, every entry that existed
    is unchanged, nothing outside the levels of the path was added, and
    the result is [true] exactly when the path did not exist before. *)
Theorem mkdirp_creates_all_levels (p : path) (t : gmap path node) :
  tree_well_formed t ->
  (forall q, q `suffix_of` p -> t !! q <> Some regular_file) ->
  exists b t',
    mkdirp p t = Ret (b, t') /\
    (forall q, q `suffix_of` p -> is_directory t' q = true) /\
    tree_well_formed t' /\
    (forall q n, t !! q = Some n -> t' !! q = Some n) /\
    (forall q, ~ q `suffix_of` p -> t' !! q = t !! q) /\
    (b = true <-> t !! p = None).
Proof.
  intros Hwf. unfold mkdirp.
  induction p as [|c parent IH]; intros Hfree.
  - destruct Hwf as [Hroot Hpar]. cbn [create_directories]. rewrite Hroot.
    exists false, t. split; [reflexivity|]. split; [|split; [|split; [|split]]].
    + intros q Hq. apply suffix_nil_inv in Hq as ->. now apply is_directory_true.
    + now split.
    + auto.
    + auto.
    + split; discriminate.
  - cbn [create_directories].
    destruct (t !! (c :: parent)) as [[]|] eqn:Hp.
    + exfalso. now apply (Hfree (c :: parent)).
    + exists false, t. split; [reflexivity|]. split; [|split; [|split; [|split]]].
      * intros q Hq. apply is_directory_true.
        now apply (ancestors_are_directories t (c :: parent)).
      * exact Hwf.
      * auto.
      * auto.
      * split; discriminate.
    + destruct IH as (b0 & t0 & Hrun & Hdirs & [Hroot0 Hpar0] & Hmono & Hsame & _).
      { intros q Hq. apply Hfree. now apply suffix_cons_r. }
      rewrite Hrun. cbn [mbind outcome_bind snd]. unfold create_directory.
      rewrite (Hsame (c :: parent) (not_suffix_of_parent c parent)), Hp.
      rewrite (Hdirs parent) by reflexivity.
      pose proof (proj1 (is_directory_true t0 parent) (Hdirs parent ltac:(reflexivity)))
        as Hparent.
      exists true, (<[c :: parent := directory]> t0).
      split; [reflexivity|]. split; [|split; [|split; [|split]]].
      * intros q Hq. apply is_directory_true.
        apply suffix_of_cons in Hq as [->|Hq]; [apply lookup_insert_eq|].
        rewrite lookup_insert_ne.
        -- apply is_directory_true. now apply Hdirs.
        -- intros <-. now apply (not_suffix_of_parent c parent).
      * split.
        -- rewrite lookup_insert_ne by discriminate. exact Hroot0.
        -- intros c' q n Hq.
           assert (Hq0 : t0 !! q = Some directory).
           { destruct (decide (c' :: q = c :: parent)) as [Heq|Hne].
             - injection Heq as -> ->. exact Hparent.
             - rewrite lookup_insert_ne in Hq by congruence.
               exact (Hpar0 _ _ _ Hq). }
           destruct (decide (q = c :: parent)) as [->|Hne];
             [apply lookup_insert_eq | now rewrite lookup_insert_ne by congruence].
      * intros q n Hq. rewrite lookup_insert_ne by congruence. now apply Hmono.
      * intros q Hq. rewrite lookup_insert_ne.
        -- apply Hsame. intros Hs. apply Hq. now apply suffix_cons_r.
        -- intros <-. now apply Hq.
      * split; reflexivity || auto.
Qed.

Lemma root_and_tmp_well_formed : tree_well_formed root_and_tmp.
Proof.
  unfold root_and_tmp. split.
  - now rewrite lookup_insert_ne by discriminate.
  - intros c parent n H.
    destruct (decide (c :: parent = ["tmp"%string])) as [Heq|Hne].
    + injection Heq as -> ->. now rewrite lookup_insert_ne by discriminate.
    + rewrite lookup_insert_ne in H by congruence.
      rewrite lookup_insert_ne in H by discriminate. now rewrite lookup_empty in H.
Qed.

Lemma mkdirp_creates_all_levels_witness :
  exists b t',
    mkdirp ["b"; "a"; "tmp"]%string root_and_tmp = Ret (b, t') /\
    (forall q, q `suffix_of` ["b"; "a"; "tmp"]%string -> is_directory t' q = true) /\
    tree_well_formed t' /\
    (forall q n, root_and_tmp !! q = Some n -> t' !! q = Some n) /\
    (forall q, ~ q `suffix_of` ["b"; "a"; "tmp"]%string ->
       t' !! q = root_and_tmp !! q) /\
    (b = true <-> root_and_tmp !! (["b"; "a"; "tmp"]%string : path) = None).
Proof.
  apply (mkdirp_creates_all_levels ["b"; "a"; "tmp"]%string root_and_tmp).
  - exact root_and_tmp_well_formed.
  - intros q Hq. unfold root_and_tmp.
    destruct (decide (q = ["tmp"%string])) as [->|Hne];
      [rewrite lookup_insert_eq; discriminate|].
    rewrite lookup_insert_ne by congruence.
    destruct (decide (q = [])) as [->|Hne'];
      [rewrite lookup_insert_eq; discriminate|].
    rewrite lookup_insert_ne by congruence. now rewrite lookup_empty.
Defined.

(** X25. When some level of the path is a regular file, [mkdirp] raises
    a filesystem error instead of returning [false]. *)
Theorem mkdirp_raises_through_file (p q : path) (t : gmap path node) :
  tree_well_formed t -> q `suffix_of` p -> t !! q = Some regular_file ->
  mkdirp p t = Throw filesystem_error.
Proof.
  intros Hwf. unfold mkdirp. induction p as [|c parent IH]; intros Hq Hfile.
  - apply suffix_nil_inv in Hq as ->. cbn [create_directories]. now rewrite Hfile.
  - cbn [create_directories].
    destruct (t !! (c :: parent)) as [[]|] eqn:Hp; [reflexivity|..].
    + pose proof (ancestors_are_directories t (c :: parent) Hwf Hp q Hq).
      congruence.
    + apply suffix_of_cons in Hq as [->|Hq]; [congruence|].
      now rewrite (IH Hq Hfile).
Qed.

Lemma mkdirp_raises_through_file_witness :
  mkdirp ["d"; "f"]%string (<[ ["f"%string] := regular_file ]> root_and_tmp)
  = Throw filesystem_error.
Proof.
  apply (mkdirp_raises_through_file _ ["f"%string]).
  - destruct root_and_tmp_well_formed as [Hroot Hpar]. split.
    + now rewrite lookup_insert_ne by discriminate.
    + intros c parent n H.
      destruct (decide (c :: parent = ["f"%string])) as [Heq|Hne].
      * injection Heq as -> ->. exact Hroot.
      * rewrite lookup_insert_ne in H by congruence.
        pose proof (Hpar _ _ _ H) as Hd.
        destruct (decide (parent = ["f"%string])) as [->|Hne'];
          [|now rewrite lookup_insert_ne by congruence].
        exfalso. unfold root_and_tmp in Hd.
        rewrite lookup_insert_ne in Hd by discriminate.
        rewrite lookup_insert_ne in Hd by discriminate.
        now rewrite lookup_empty in Hd.
  - now apply suffix_cons_r.
  - apply lookup_insert_eq.
Defined.

(** ** Printing an integer with [format] *)

Lemma double_digits d :
  (Decimal.nb_digits (Decimal.Little.double d) <= S (Decimal.nb_digits d))%nat /\
  (Decimal.nb_digits (Decimal.Little.succ_double d) <= S (Decimal.nb_digits d))%nat.
Proof. induction d; simpl; lia. Qed.

Lemma little_digits p :
  (Decimal.nb_digits (Pos.to_little_uint p) <= Pos.size_nat p)%nat.
Proof.
  induction p as [p IH|p IH|]; simpl; [| |lia].
  - pose proof (proj2 (double_digits (Pos.to_little_uint p))). lia.
  - pose proof (proj1 (double_digits (Pos.to_little_uint p))). lia.
Qed.

Lemma length_string_of_uint d :
  length (str (NilEmpty.string_of_uint d)) = Decimal.nb_digits d.
Proof. induction d; simpl; congruence. Qed.

Lemma size_nat_bound p :
  forall k, Z.pos p < 2 ^ Z.of_nat k -> (Pos.size_nat p <= k)%nat.
Proof.
  induction p as [p IH|p IH|]; intros [|k] H; simpl in *; try lia;
    rewrite ?Zpos_P_of_succ_nat, <- ?Nat2Z.inj_succ in *;
    try (apply le_n_S, IH);
    change (Z.pos (Pos.of_succ_nat k)) with (Z.of_nat (S k)) in H;
    rewrite Nat2Z.inj_succ, Z.pow_succ_r in H by lia; lia.
Qed.

Lemma length_to_string n :
  INT_MIN <= n <= INT_MAX -> (length (to_string n) <= 33)%nat.
Proof.
  unfold INT_MIN, INT_MAX, to_string. intros Hn.
  destruct n as [|p|p]; simpl Z.to_int; unfold NilZero.string_of_int;
    [simpl; lia|..];
    rewrite (nilzero_string_of_uint _ (to_uint_nonnil p));
    [|change (str (String "-" ?x)) with ("-"%char :: str x); cbn [length]];
    rewrite length_string_of_uint; unfold Pos.to_uint;
    rewrite DecimalFacts.nb_digits_rev;
    pose proof (little_digits p);
    pose proof (size_nat_bound p 32 ltac:(simpl; lia)); lia.
Qed.

(** X26. [format] with the template "%d" prints an [int] exactly as
    [fromInt] does, and [toInt] reads the printed text back. *)
Theorem format_int_reads_back (n d : Z) :
  INT_MIN <= n <= INT_MAX ->
  format (str "%d") [arg_int n] = Output (fromInt n) /\
  toInt (fromInt n) d = Ret n.
Proof.
  intros Hn. split; [|now apply toInt_to_string].
  apply format_of_output.
  - cbn. unfold render_int, fromInt, to_string. now rewrite app_nil_r.
  - pose proof (length_to_string n Hn). unfold fromInt, INT_MAX. lia.
Qed.

Lemma format_int_reads_back_witness :
  format (str "%d") [arg_int (-42)] = Output (fromInt (-42)) /\
  toInt (fromInt (-42)) 0 = Ret (-42).
Proof. apply format_int_reads_back. unfold INT_MIN, INT_MAX. lia. Defined.

(** ** [slice] and [substring] side by side *)

(** X27. On bounds [0 <= start <= end] the two ways of cutting a text
    agree; on reversed bounds inside the text they differ: [slice]
    returns the empty text, [substring] everything from [start] on. *)
Theorem slice_substring_agree (s : text) (start end_ : Z) :
  Z.of_nat (length s) <= INT_MAX ->
  0 <= start <= INT_MAX -> 0 <= end_ <= INT_MAX ->
  (start <= end_ -> slice s start end_ = substring s start end_) /\
  (end_ < start < Z.of_nat (length s) ->
     slice s start end_ = Ret [] /\
     substring s start end_ = Ret (drop (Z.to_nat start) s)).
Proof.
  unfold INT_MAX. intros Hlen Hs He.
  assert (Hlen64 : Z.of_nat (length s) < 2 ^ 64) by lia.
  destruct (substring_cases s start end_ Hlen64 ltac:(lia) ltac:(lia))
    as (Hout & Hin & Hrev & _).
  assert (Hto : to_int (Z.of_nat (length s)) = Z.of_nat (length s))
    by (apply to_int_in_range; unfold INT_MIN, INT_MAX; lia).
  split.
  - intros Hle. unfold slice. rewrite Hto.
    destruct (Z.ltb_spec start 0); [lia|]. destruct (Z.ltb_spec end_ 0); [lia|].
    destruct (Z.le_gt_cases (Z.of_nat (length s)) start) as [Hbig|Hsmall].
    + rewrite Hout by exact Hbig.
      destruct (Z.geb_spec start (Z.of_nat (length s))); [reflexivity | lia].
    + rewrite Hin by lia.
      destruct (Z.geb_spec start (Z.of_nat (length s))); [lia|]. cbn [orb].
      destruct (Z.geb_spec start end_).
      * replace (Z.to_nat (end_ - start)) with 0%nat by lia. reflexivity.
      * unfold substr.
        rewrite to_int_in_range by (unfold INT_MIN, INT_MAX; lia).
        rewrite !to_size_t_small by lia.
        destruct (Nat.ltb_spec (length s) (Z.to_nat start)); [lia|].
        f_equal.
        destruct (Z.le_gt_cases end_ (Z.of_nat (length s))).
        -- now rewrite Z.min_l by lia.
        -- rewrite Z.min_r by lia.
           rewrite !take_ge; [reflexivity | rewrite length_drop; lia..].
  - intros Hrev'. split; [|apply Hrev; lia].
    unfold slice. rewrite Hto.
    destruct (Z.ltb_spec start 0); [lia|]. destruct (Z.ltb_spec end_ 0); [lia|].
    destruct (Z.geb_spec start (Z.of_nat (length s))); [reflexivity|]. cbn [orb].
    destruct (Z.geb_spec start end_); [reflexivity | lia].
Qed.

Lemma slice_substring_agree_witness :
  slice (str "hello") 1 3 = substring (str "hello") 1 3 /\
  slice (str "hello") 3 1 = Ret [] /\
  substring (str "hello") 3 1 = Ret (drop (Z.to_nat 3) (str "hello")).
Proof.
  destruct (slice_substring_agree (str "hello") 1 3) as [H1 _];
    [unfold INT_MAX; simpl; lia | unfold INT_MAX; lia | unfold INT_MAX; lia |].
  destruct (slice_substring_agree (str "hello") 3 1) as [_ H2];
    [unfold INT_MAX; simpl; lia | unfold INT_MAX; lia | unfold INT_MAX; lia |].
  split; [apply H1; lia | apply H2; simpl; lia].
Defined.

(** ** Trimming before parsing *)

Lemma whitespace_is_isspace c : in_set WHITESPACE c = isspace c.
Proof. destruct c as [[] [] [] [] [] [] [] []]; reflexivity. Qed.

Lemma isspace_not_digit_or_sign c :
  isspace c = true ->
  isdigit c = false /\ Ascii.eqb c "-" = false /\ Ascii.eqb c "+" = false.
Proof. destruct c as [[] [] [] [] [] [] [] []]; intros H; try discriminate H; repeat split. Qed.

Lemma skip_space_all ws :
  Forall (fun x => in_set WHITESPACE x = true) ws -> skip_space ws = [].
Proof.
  induction 1 as [|c ws Hc _ IH]; [reflexivity|].
  simpl. now rewrite <- whitespace_is_isspace, Hc.
Qed.

Lemma skip_space_leading ws s :
  Forall (fun x => in_set WHITESPACE x = true) ws ->
  skip_space (ws ++ s) = skip_space s.
Proof.
  induction 1 as [|c ws Hc _ IH]; [reflexivity|].
  simpl. now rewrite <- whitespace_is_isspace, Hc.
Qed.

Lemma starts_with_digit_whitespace r :
  Forall (fun x => in_set WHITESPACE x = true) r -> starts_with_digit r = false.
Proof.
  destruct 1 as [|c r Hc _]; [reflexivity|]. simpl.
  rewrite whitespace_is_isspace in Hc. now apply isspace_not_digit_or_sign.
Qed.

Lemma leading_integer_trailing_space t r :
  (forall c t', t = c :: t' -> in_set WHITESPACE c = false) ->
  Forall (fun x => in_set WHITESPACE x = true) r ->
  leading_integer (t ++ r) = leading_integer t.
Proof.
  intros Hfirst Hr.
  destruct (leading_integer t) as [v|] eqn:Ht.
  - destruct r as [|c r]; [now rewrite app_nil_r|].
    apply leading_integer_ignores_tail; [exact Ht|].
    inversion Hr as [|? ? Hc _]; subst. rewrite whitespace_is_isspace in Hc.
    now apply isspace_not_digit_or_sign.
  - unfold leading_integer in *.
    destruct t as [|c t'].
    + simpl. now rewrite skip_space_all.
    + pose proof (Hfirst c t' eq_refl) as Hc. rewrite whitespace_is_isspace in Hc.
      cbn [app skip_space] in *. rewrite Hc in *. cbn [read_sign] in *.
      pose proof (starts_with_digit_whitespace r Hr) as Hrd.
      destruct (Ascii.eqb c "-"); [|destruct (Ascii.eqb c "+")];
        cbn [starts_with_digit] in *;
        try (destruct t' as [|y t']; cbn [app starts_with_digit] in *;
             [now rewrite Hrd|]);
        try (destruct (isdigit y); [discriminate | reflexivity]);
        destruct (isdigit c); [discriminate | reflexivity].
Qed.

(** X28. Trimming a text before parsing it never changes the result:
    [toInt] of the trimmed text is [toInt] of the text. *)
Theorem toInt_of_trimmed (s t : text) (d : Z) :
  trim s = Ret t -> toInt t d = toInt s d.
Proof.
  intros Hs.
  destruct (trim_decomposition s) as (l & t0 & r & Hrun & -> & Hl & Hr & Hfirst & _).
  rewrite Hrun in Hs. injection Hs as ->.
  rewrite !toInt_value. unfold leading_integer at 2.
  rewrite (skip_space_leading l (t ++ r) Hl).
  change (let '(neg, body) := read_sign (skip_space (t ++ r)) in
          if starts_with_digit body
          then Some (if neg then - digit_run body 0 else digit_run body 0)
          else None) with (leading_integer (t ++ r)).
  now rewrite (leading_integer_trailing_space t r Hfirst Hr).
Qed.

Lemma toInt_of_trimmed_witness :
  toInt (str "-17 kg") 0 = toInt (str "  -17 kg  ") 0.
Proof. apply (toInt_of_trimmed (str "  -17 kg  ")). reflexivity. Defined.
